(** * Skycfg: module loader, entry-point harness and test harness

    A shallow embedding of [skycfg.go] (package [skycfg]): the default
    [FileReader], the memoizing, cycle-detecting [loadImpl], [Config.Main],
    the [Test] handles and the batch runner [Config.RunTests].

    The Starlark interpreter, the Protobuf bridge and the Go standard
    library are collaborators of the package.  They are represented by
    explicit interfaces (records of functions, or small executable models
    written from their documentation), so every definition below can be
    evaluated on concrete inputs. *)

From Stdlib Require Import ZArith Ascii String List Bool Lia DecimalString.
From stdpp Require Import base option list gmap strings sets fin_maps.

Set Warnings "-register-all".

Open Scope string_scope.
Open Scope list_scope.

(** ** Errors, values and symbol tables *)

(** Go [error] values.  [Errorf] is an error built by [fmt.Errorf] from its
    formatted message; [Wrapped] is an error that carries a cause, as the
    interpreter builds when a [load] statement fails
    (message [cannot load <module>: <cause>]). *)
Inductive error : Type :=
| Errorf (msg : string)
| Wrapped (msg : string) (cause : error).

Fixpoint rootCause (e : error) : error :=
  match e with
  | Errorf _ => e
  | Wrapped _ c => rootCause c
  end.

Definition errorMessage (e : error) : string :=
  match e with
  | Errorf m => m
  | Wrapped m _ => m
  end.

(** A host-side Protobuf message ([proto.Message]); opaque to the package. *)
Record Message : Type := mkMessage {
  messageType : string;
  messageBody : string
}.

(** Script-side values ([starlark.Value]).  A [*starlark.Dict] is a reference
    into the heap of dictionaries; a [*starlark.Function] and a
    [*starlark.Builtin] are named by an identifier that the interpreter
    knows how to call. *)
Inductive Value : Type :=
| NoneValue
| BoolValue (b : bool)
| IntValue (z : Z)
| StringValue (s : string)
| ListValue (elems : list Value)
| DictValue (ref : nat)
| FunctionValue (fn : string)
| BuiltinValue (fn : string)
| MessageValue (msg : Message)
| ModuleValue (name : string) (attrs : list (string * Value)).

(** The outcome of a Go call that may panic. *)
Inductive go (A : Type) : Type :=
| Return (a : A)
| Panic (msg : string).
Arguments Return {A} a.
Arguments Panic {A} msg.

(** [%d] of [fmt] for a length. *)
Definition decimal (n : nat) : string := NilZero.string_of_uint (Nat.to_uint n).

(** [starlark.StringDict]: a symbol table.  The nil map of Go reads like the
    empty map and is written [∅]. *)
Abbreviation StringDict := (gmap string Value).

(** ** The Go path libraries used by the default [FileReader] *)

Module GoPath.

(** [strings.ContainsRune(s, r)] for a one-byte rune. *)
Fixpoint ContainsRune (s : string) (r : ascii) : bool :=
  match s with
  | EmptyString => false
  | String c rest => Ascii.eqb c r || ContainsRune rest r
  end.

(** [strings.Split(s, sep)] for a one-byte separator: the pieces of [s]
    between separators, in order; never the empty list. *)
Fixpoint splitOn (sep : ascii) (s : string) : list string :=
  match s with
  | EmptyString => [EmptyString]
  | String c rest =>
    if Ascii.eqb c sep then EmptyString :: splitOn sep rest
    else match splitOn sep rest with
         | seg :: segs => String c seg :: segs
         | [] => [String c EmptyString]
         end
  end.

(** [strings.Join(elems, sep)] for a one-byte separator. *)
Fixpoint joinWith (sep : ascii) (elems : list string) : string :=
  match elems with
  | [] => EmptyString
  | [e] => e
  | e :: rest => e ++ String sep (joinWith sep rest)
  end.

(** [strings.ReplaceAll] of one byte by another. *)
Fixpoint replaceRune (old new : ascii) (s : string) : string :=
  match s with
  | EmptyString => EmptyString
  | String c rest =>
    String (if Ascii.eqb c old then new else c) (replaceRune old new rest)
  end.

(** One path element met by [Clean]; [stack] holds the elements kept so
    far, last one first.  Following the rules documented for [Clean]: empty
    and [.] elements are dropped; [..] removes the element before it, is
    dropped at the top of a rooted path and is kept at the front of a
    relative one. *)
Definition cleanStep (rooted : bool) (stack : list string) (elem : string)
  : list string :=
  if String.eqb elem "" || String.eqb elem "." then stack
  else if String.eqb elem ".." then
    match stack with
    | top :: below => if String.eqb top ".." then elem :: stack else below
    | [] => if rooted then [] else [elem]
    end
  else elem :: stack.

Definition isRooted (sep : ascii) (path : string) : bool :=
  match path with
  | String c _ => Ascii.eqb c sep
  | EmptyString => false
  end.

(** The elements of the shortest path equivalent to [path]. *)
Definition elements (sep : ascii) (path : string) : list string :=
  rev (fold_left (cleanStep (isRooted sep path)) (splitOn sep path) []).

(** A path written from its elements; the empty relative path is [.]. *)
Definition assemble (sep : ascii) (rooted : bool) (elems : list string) : string :=
  if rooted then String sep (joinWith sep elems)
  else match elems with
       | [] => "."
       | _ => joinWith sep elems
       end.

(** The algorithm of [Clean] on paths that are elements separated by
    [sep], with no volume name before them. *)
Definition cleanWith (sep : ascii) (path : string) : string :=
  assemble sep (isRooted sep path) (elements sep path).

(** [path.Clean]: the algorithm on slash-separated paths. *)
Definition Clean : string -> string := cleanWith "/".

End GoPath.

(** ** The default [FileReader] *)

Module Local.

Import GoPath.

(** [filepath.Clean], [filepath.Join] and [filepath.Dir] as package
    [filepath] implements them on Unix, where the separator is the slash
    and a path has no volume name: [Clean] is the algorithm of
    [path.Clean], [Join] cleans its arguments joined by slashes, starting
    at the first one that is not empty, and [Dir] cleans the path up to
    its last slash. *)
Definition unixClean : string -> string := Clean.

Fixpoint unixJoin (elem : list string) : string :=
  match elem with
  | [] => ""
  | e :: rest =>
    if String.eqb e "" then unixJoin rest
    else unixClean (joinWith "/" elem)
  end.

(** The part of [path] up to and including its last slash; empty when
    [path] has no slash. *)
Fixpoint dirPart (path : string) : string :=
  match path with
  | EmptyString => EmptyString
  | String c rest =>
    let d := dirPart rest in
    if Ascii.eqb c "/" || negb (String.eqb d "") then String c d
    else EmptyString
  end.

Definition unixDir (path : string) : string := unixClean (dirPart path).

Section Platform.

(** [filepath.Separator]: the slash on Unix, the backslash on Windows. *)
Variable Separator : ascii.

(** The verb [%q] of [fmt]: a string as a double-quoted Go literal, with
    the escapes of [strconv.Quote]. *)
Variable quote : string -> string.

(** [filepath.Join] of the platform. *)
Variable filepathJoin : list string -> string.

(** [filepath.FromSlash]. *)
Definition FromSlash (path : string) : string :=
  if Ascii.eqb Separator "/" then path else replaceRune "/" Separator path.

Record localFileReader : Type := mkLocal { root : string }.

(** [LocalFileReader(root)]. *)
Definition LocalFileReader (root : string) : go localFileReader :=
  if String.eqb root "" then Panic "LocalFileReader: empty root path"
  else Return (mkLocal root).

(** Method [Resolve] of [localFileReader]. *)
Definition Resolve (r : localFileReader) (name fromPath : string)
  : string * option error :=
  if String.eqb fromPath "" then (name, None)
  else if negb (Ascii.eqb Separator "/") && ContainsRune name Separator then
    ("", Some (Errorf ("load(" ++ quote name ++ "): invalid character in module name")))
  else
    let resolved := filepathJoin [root r; FromSlash (Clean ("/" ++ name))] in
    (resolved, None).

(** [ioutil.ReadFile] on the file system of the host. *)
Variable ioutilReadFile : string -> string * option error.

(** Method [ReadFile] of [localFileReader]. *)
Definition ReadFile (r : localFileReader) (path : string) : string * option error :=
  ioutilReadFile path.

End Platform.

(** *** Observations on resolved paths *)

(** The backslash, the separator of Windows. *)
Definition backslash : ascii := "092"%char.

(** A path element that names a file or directory: not empty, not [.]
    or [..], and free of the slash and of the platform's separator. *)
Definition plainName (sep : ascii) (elem : string) : Prop :=
  elem <> "" /\ elem <> "." /\ elem <> ".." /\
  ContainsRune elem "/" = false /\ ContainsRune elem sep = false.

(** [root], cleaned, followed by the path elements [names], on a platform
    whose paths are the elements joined by [sep] and nothing else. *)
Definition below (sep : ascii) (root : string) (names : list string) : string :=
  assemble sep (isRooted sep root) (elements sep root ++ names).

(** An element that [Clean] keeps: not empty, not [.], and free of the
    separator. *)
Definition keptElement (sep : ascii) (elem : string) : Prop :=
  elem <> "" /\ elem <> "." /\ ContainsRune elem sep = false.

(** A path below [rootDir]: the cleaned root followed by plain names. *)
Definition confined (sep : ascii) (rootDir path : string) : Prop :=
  exists names, Forall (plainName sep) names /\ path = below sep rootDir names.

End Local.

(** ** The module loader ([loadImpl]) *)

Module Loader.

(** The [FileReader] interface.  Both methods return a Go pair
    [(value, error)]; the [context.Context] argument is only passed
    through by the loader and is left out. *)
Record FileReader : Type := mkFileReader {
  Resolve : string -> string -> string * option error;
  ReadFile : string -> string * option error
}.

(** What [starlark.ExecFile] does with one module, seen from the loader:
    the interpreter runs the module body and calls back [thread.Load] for
    every [load] statement it meets, continuing (or aborting) according to
    the pair that the callback returned; at the end it returns the
    module's globals and an error. *)
Inductive script : Type :=
| Finish (globals : StringDict) (err : option error)
| LoadStmt (module : string) (k : StringDict * option error -> script).

(** [type cacheEntry struct { globals; err }]. *)
Record cacheEntry : Type := mkEntry {
  globals : StringDict;
  err : option error
}.

(** The observable steps of one load session, in order: the calls made to
    the [FileReader] and to the interpreter, and what each call of the
    [load] closure handed back to its requester once the module name had
    been resolved. *)
Inductive event : Type :=
| EvResolve (name fromPath : string)
| EvReadFile (path : string)
| EvExecFile (path : string)
| EvReturn (path : string) (globals : StringDict) (err : option error).

(** The state captured by the [load] closure.  [cache] is Go's
    [map[string]*cacheEntry]: a missing key is [None], a key bound to the
    nil pointer is [Some None], a key bound to an entry is [Some (Some e)].
    [trace] is the history of the session (ghost state). *)
Record session : Type := mkSession {
  cache : gmap string (option cacheEntry);
  trace : list event
}.

Definition setCache (p : string) (e : option cacheEntry) (s : session) : session :=
  mkSession (<[p := e]> (cache s)) (trace s).

Definition emit (ev : event) (s : session) : session :=
  mkSession (cache s) (trace s ++ [ev]).

(** A [*starlark.Thread], reduced to its call stack: the file names of the
    frames, innermost first. *)
Abbreviation Thread := (list string).

(** [thread.TopFrame().Position().Filename()], or the empty string when the
    thread has no frame. *)
Definition fromPathOf (thread : Thread) : string :=
  match thread with
  | [] => ""
  | f :: _ => f
  end.

Definition cycleError : error := Errorf "cycle in load graph".

(** A [localFileReader] seen through the interface. *)
Definition localReader (Separator : ascii) (quote : string -> string)
    (filepathJoin : list string -> string)
    (ioutilReadFile : string -> string * option error)
    (r : Local.localFileReader) : FileReader :=
  mkFileReader (Local.Resolve Separator quote filepathJoin r)
    (Local.ReadFile ioutilReadFile r).

(** The result of one call of the [load] closure: the returned pair and
    the session afterwards; [None] when the depth bound was reached. *)
Abbreviation outcome := (option ((StringDict * option error) * session)).

Section Load.

Variable reader : FileReader.

(** [starlark.ExecFile(thread, modulePath, moduleSource, opts.globals)];
    [opts.globals] is fixed for the session. *)
Variable ExecFile : string -> string -> script.

(** The interpreter running a module body: every [load] statement calls
    [thread.Load], which is the closure itself ([callback]). *)
Fixpoint execScript (callback : string -> session -> outcome)
    (body : script) (s : session) : outcome :=
  match body with
  | Finish g e => Some ((g, e), s)
  | LoadStmt m k =>
    match callback m s with
    | None => None
    | Some (r, s') => execScript callback (k r) s'
    end
  end.

(** The [load] closure.  [fuel] bounds the depth of nested [load] calls.
    While [ExecFile] runs the module at [modulePath], the top frame of the
    thread is that module's. *)
Fixpoint load (fuel : nat) (thread : Thread) (moduleName : string) (s : session)
  : outcome :=
  match fuel with
  | O => None
  | S fuel' =>
    let fromPath := fromPathOf thread in
    let s := emit (EvResolve moduleName fromPath) s in
    match Resolve reader moduleName fromPath with
    | (_, Some err) => Some ((∅, Some err), s)
    | (modulePath, None) =>
      match cache s !! modulePath with
      | Some (Some e) =>
        Some ((globals e, err e), emit (EvReturn modulePath (globals e) (err e)) s)
      | Some None =>
        Some ((∅, Some cycleError), emit (EvReturn modulePath ∅ (Some cycleError)) s)
      | None =>
        let s := emit (EvReadFile modulePath) s in
        match ReadFile reader modulePath with
        | (_, Some err) =>
          let s := setCache modulePath (Some (mkEntry ∅ (Some err))) s in
          Some ((∅, Some err), emit (EvReturn modulePath ∅ (Some err)) s)
        | (moduleSource, None) =>
          let s := setCache modulePath None s in
          let s := emit (EvExecFile modulePath) s in
          match execScript (load fuel' (modulePath :: thread))
                  (ExecFile modulePath moduleSource) s with
          | None => None
          | Some ((g, e), s) =>
            let s := setCache modulePath (Some (mkEntry g e)) s in
            Some ((g, e), emit (EvReturn modulePath g e) s)
          end
        end
      end
    end
  end.

(** [loadImpl]: a fresh cache, then [load] on a thread without frames. *)
Definition loadImpl (fuel : nat) (filename : string) : outcome :=
  load fuel [] filename (mkSession ∅ []).

End Load.

(** *** Observations on sessions *)

(** The module paths handed to [starlark.ExecFile], in order. *)
Definition executed (tr : list event) : list string :=
  omap (fun ev => match ev with EvExecFile p => Some p | _ => None end) tr.

(** The module paths handed to [reader.ReadFile], in order. *)
Definition fetched (tr : list event) : list string :=
  omap (fun ev => match ev with EvReadFile p => Some p | _ => None end) tr.

(** The arguments of the calls of [reader.Resolve], in order. *)
Definition resolved (tr : list event) : list (string * string) :=
  omap (fun ev => match ev with EvResolve n f => Some (n, f) | _ => None end) tr.

(** [happened s s' new]: [s'] is [s] after some activity of the loader whose
    steps are [new].  Finished entries are final, entries of modules that
    are executing stay pending, and every module executed during [new] was
    absent before and is finished afterwards. *)
Record happened (s s' : session) (new : list event) : Prop := mkHappened {
  hap_trace : trace s' = trace s ++ new;
  hap_done : forall p e, cache s !! p = Some (Some e) -> cache s' !! p = Some (Some e);
  hap_pending : forall p, cache s !! p = Some None -> cache s' !! p = Some None;
  hap_absent : forall p, cache s !! p = None ->
      cache s' !! p = None \/ exists e, cache s' !! p = Some (Some e);
  hap_once : NoDup (executed new);
  hap_fetch_once : NoDup (fetched new);
  hap_executed : forall p, p ∈ executed new ->
      cache s !! p = None /\ exists e, cache s' !! p = Some (Some e);
  hap_fetched : forall p, p ∈ fetched new ->
      cache s !! p = None /\ exists e, cache s' !! p = Some (Some e);
  hap_returned : forall p g e, EvReturn p g e ∈ new ->
      cache s' !! p = Some (Some (mkEntry g e)) \/ (g = ∅ /\ e = Some cycleError)
}.

(** An interpreter propagates failed loads when, as in Starlark, a [load]
    statement whose callback returns an error ends the module with an
    error of the same root cause. *)
Fixpoint propagates (body : script) : Prop :=
  match body with
  | Finish _ _ => True
  | LoadStmt m k =>
    (forall g e, exists g' e',
        k (g, Some e) = Finish g' (Some e') /\ rootCause e' = rootCause e) /\
    (forall g, propagates (k (g, None)))
  end.

(** Every failed return among [new] has the root cause of the result [r]. *)
Definition blames (new : list event) (r : StringDict * option error) : Prop :=
  forall p g e, EvReturn p g (Some e) ∈ new ->
    exists e', r.2 = Some e' /\ rootCause e' = rootCause e.

(** Whether [ReadFile] returns the source of [path] without error. *)
Definition fetchable (reader : FileReader) (path : string) : bool :=
  match (ReadFile reader path).2 with
  | None => true
  | Some _ => false
  end.

(** What one call of [load] or one module body adds to the trace: the
    executed paths are the fetched paths whose fetch succeeded, and every
    [Resolve] is made from the requesting thread's top frame or from a
    module executed in between. *)
Definition orderly (reader : FileReader) (thread : Thread) (new : list event) : Prop :=
  executed new = List.filter (fetchable reader) (fetched new) /\
  (forall name from, (name, from) ∈ resolved new ->
     from = fromPathOf thread \/ from ∈ executed new).

(** The calls that the interpreter makes to the callback while it runs
    [body] from the session [s]: the module name of each [load] statement
    it reaches, with the session at the time of the call. *)
Fixpoint callbackCalls (callback : string -> session -> outcome)
    (body : script) (s : session) : list (string * session) :=
  match body with
  | Finish _ _ => []
  | LoadStmt m k =>
    (m, s) :: match callback m s with
              | None => []
              | Some (r, s') => callbackCalls callback (k r) s'
              end
  end.

(** A cycle in the import graph, read off the files and the module bodies:
    [leadsToCycle reader ExecFile visiting P n] says that, starting at the
    path [P] with the modules of [visiting] on the way, following the first
    [load] statement of each module for [n] steps comes back to a module
    that is on the way.  For the files [A], [B], [C] with [A] importing
    [B], [B] importing [C] and [C] importing [A], [A] leads to a cycle in
    three steps. *)
Inductive leadsToCycle (reader : FileReader) (ExecFile : string -> string -> script)
  : list string -> string -> nat -> Prop :=
| cycle_closed (visiting : list string) (P : string) :
    P ∈ visiting -> leadsToCycle reader ExecFile visiting P 0
| cycle_step (visiting : list string) (P src m : string)
    (k : StringDict * option error -> script) (P' : string) (n : nat) :
    P ∉ visiting ->
    ReadFile reader P = (src, None) ->
    ExecFile P src = LoadStmt m k ->
    Resolve reader m P = (P', None) ->
    leadsToCycle reader ExecFile (P :: visiting) P' n ->
    leadsToCycle reader ExecFile visiting P (S n).

End Loader.

(** ** The entry-point harness and the test harness *)

Module Harness.

(** [impl.ToProtoMessage], behind [AsProtoMessage]: the message under a
    value made by [NewProtoMessage], or nothing for any other value. *)
Definition AsProtoMessage (v : Value) : option Message :=
  match v with
  | MessageValue msg => Some msg
  | _ => None
  end.

Definition NewProtoMessage (msg : Message) : Value := MessageValue msg.

(** Method [Type] of [starlark.Value]. *)
Definition typeOf (v : Value) : string :=
  match v with
  | NoneValue => "NoneType"
  | BoolValue _ => "bool"
  | IntValue _ => "int"
  | StringValue _ => "string"
  | ListValue _ => "list"
  | DictValue _ => "dict"
  | FunctionValue _ => "function"
  | BuiltinValue _ => "builtin_function_or_method"
  | MessageValue msg => messageType msg
  | ModuleValue _ _ => "module"
  end.

(** The type assertion [v.(starlark.Callable)]. *)
Definition isCallable (v : Value) : bool :=
  match v with
  | FunctionValue _ | BuiltinValue _ => true
  | _ => false
  end.

(** What script code and the harness share between calls: the contents of
    the dictionaries, by reference, and the wall clock.  Dictionaries are
    keyed by strings here, as the keys that [WithVars] writes are. *)
Record Heap : Type := mkHeap {
  dicts : gmap nat (gmap string Value);
  clock : Z
}.

(** [&starlark.Dict{}]: a new, empty dictionary. *)
Definition newDict (h : Heap) : nat * Heap :=
  let ref := fresh (dom (dicts h)) in
  (ref, mkHeap (<[ref := ∅]> (dicts h)) (clock h)).

(** [d.SetKey(starlark.String(key), value)]. *)
Definition SetKey (ref : nat) (key : string) (value : Value) (h : Heap) : Heap :=
  mkHeap (alter (fun d => <[key := value]> d) ref (dicts h)) (clock h).

Record Config : Type := mkConfig {
  filename : string;
  globals : StringDict;
  locals : StringDict
}.

Record execOptions : Type := mkExecOptions { vars : nat }.

(** The one [ExecOption] of the package. *)
Inductive ExecOption : Type :=
| WithVars (vars : StringDict).

(** [opt.applyExec(parsedOpts)]: [WithVars] sets every key of its argument
    in [opts.vars]; the keys are distinct, so the order of Go's [range]
    does not matter. *)
Definition applyExec (opt : ExecOption) (opts : execOptions) (h : Heap) : Heap :=
  match opt with
  | WithVars vs =>
    mkHeap (alter (fun d => vs ∪ d) (vars opts) (dicts h)) (clock h)
  end.

Definition applyAll (opts : list ExecOption) (parsedOpts : execOptions) (h : Heap) : Heap :=
  fold_left (fun h opt => applyExec opt parsedOpts h) opts h.

(** [&impl.Module{Name: "skycfg_ctx", Attrs: {"vars": vars}}]. *)
Definition contextModule (varsRef : nat) : Value :=
  ModuleValue "skycfg_ctx" [("vars", DictValue varsRef)].

(** [PASS] and [FAIL]. *)
Inductive TestResult : Type := PASS | FAIL.

Record Test : Type := mkTest {
  name : string;
  callable : Value;
  result : TestResult;
  duration : Z;
  complete : bool;
  err : option error
}.

(** The test filter shared by [Tests] and [RunTests]. *)
Definition isTest (entry : string * Value) : bool :=
  String.prefix "test_" entry.1 && String.eqb (typeOf entry.2) "function".

(** A way in which Go's [range] may visit the entries of a map: each
    entry once, in any order. *)
Definition visitsAll (range : StringDict -> list (string * Value)) : Prop :=
  forall m, range m ≡ₚ map_to_list m.

(** The loop of [Main] over the returned list. *)
Fixpoint collectMessages (elems : list Value) (msgs : list Message)
  : list Message * option error :=
  match elems with
  | [] => (msgs, None)
  | maybeMsg :: rest =>
    match AsProtoMessage maybeMsg with
    | None =>
      ([], Some (Errorf ("`main' returned something that's not a protobuf (a "
                           ++ typeOf maybeMsg ++ ")")))
    | Some msg => collectMessages rest (msgs ++ [msg])
    end
  end.

(** What the batch runner has gathered so far; [ran] is the history of the
    calls made, each with its error (ghost state). *)
Record batch : Type := mkBatch {
  msgs : list string;
  success : bool;
  ran : list (string * option error);
  heap : Heap
}.

Section Engine.

(** [starlark.Call(thread, fn, args, nil)]: the interpreter runs [fn] on
    [args]; it may read and write the dictionaries it can reach and takes
    time. *)
Variable Call : Value -> list Value -> Heap -> (Value + error) * Heap.

(** The verb [%q] of [fmt]: a string as a double-quoted Go literal, with
    the escapes of [strconv.Quote]. *)
Variable quote : string -> string.

(** The order in which [range] visits the entries of a map. *)
Variable range : StringDict -> list (string * Value).

(** [Config.Main]. *)
Definition Main (c : Config) (opts : list ExecOption) (h : Heap)
  : (list Message * option error) * Heap :=
  let (varsRef, h) := newDict h in
  let parsedOpts := mkExecOptions varsRef in
  let h := applyAll opts parsedOpts h in
  match locals c !! "main" with
  | None =>
    (([], Some (Errorf ("no `main' function found in " ++ quote (filename c)))), h)
  | Some mainVal =>
    if negb (isCallable mainVal) then
      (([], Some (Errorf ("`main' must be a function (got a "
                            ++ typeOf mainVal ++ ")"))), h)
    else
      let mainCtx := contextModule (vars parsedOpts) in
      match Call mainVal [mainCtx] h with
      | (inr err, h) => (([], Some err), h)
      | (inl mainVal, h) =>
        match mainVal with
        | ListValue mainList => (collectMessages mainList [], h)
        | NoneValue => (([], None), h)
        | _ =>
          (([], Some (Errorf ("`main' didn't return a list (got a "
                                ++ typeOf mainVal ++ ")"))), h)
        end
      end
  end.

(** [Test.Run]: the updated test, the returned error and the heap. *)
Definition Run (t : Test) (h : Heap) : (Test * option error) * Heap :=
  let (varsRef, h) := newDict h in
  let funcCtx := contextModule varsRef in
  let startTime := clock h in
  let (r, h) := Call (callable t) [funcCtx] h in
  let err := match r with inl _ => None | inr e => Some e end in
  let t := mkTest (name t) (callable t)
             (match err with Some _ => FAIL | None => PASS end)
             (clock h - startTime) true err in
  ((t, err), h).

(** [Test.Result], [Test.Duration] and [Test.Error]. *)
Definition Result (t : Test) : go TestResult :=
  if negb (complete t) then Panic "can't get the result of a test that has not run"
  else Return (result t).

Definition Duration (t : Test) : go Z :=
  if negb (complete t) then Panic "can't get the duration of a test that has not run"
  else Return (duration t).

Definition Error (t : Test) : go (option error) :=
  if negb (complete t) then Panic "can't get the error of a test that has not run"
  else Return (err t).

(** [Config.Tests]. *)
Definition Tests (c : Config) : list Test :=
  fold_left (fun tests entry =>
      if negb (isTest entry) then tests
      else tests ++ [mkTest entry.1 entry.2 PASS 0 false None])
    (range (locals c)) [].

(** One iteration of the loop of [RunTests]. *)
Definition runEntry (parsedOpts : execOptions) (b : batch) (entry : string * Value)
  : batch :=
  if negb (isTest entry) then b
  else
    let funcCtx := contextModule (vars parsedOpts) in
    match Call entry.2 [funcCtx] (heap b) with
    | (inr err, h) =>
      mkBatch (msgs b ++ ["Test did not exit cleanly (" +:+ entry.1 +:+ "): "
                            +:+ errorMessage err])
              false (ran b ++ [(entry.1, Some err)]) h
    | (inl _, h) =>
      mkBatch (msgs b) (success b) (ran b ++ [(entry.1, None)]) h
    end.

(** [Config.RunTests]: the failure messages and the error, then the
    history of the calls and the heap.  (The [*testing.T] argument is only
    installed as the reporter of the thread and is left out.) *)
Definition RunTests (c : Config) (opts : list ExecOption) (h : Heap)
  : (list string * option error) * list (string * option error) * Heap :=
  let (varsRef, h) := newDict h in
  let parsedOpts := mkExecOptions varsRef in
  let h := applyAll opts parsedOpts h in
  let b := fold_left (runEntry parsedOpts) (range (locals c)) (mkBatch [] true [] h) in
  if negb (success b) then
    ((msgs b, Some (Errorf (decimal (length (msgs b))
                              ++ " tests failed to exit cleanly"))), ran b, heap b)
  else (([], None), ran b, heap b).

End Engine.

(** *** Observations on runs *)

(** What the interpreter returns when the tests among [entries] are called
    one after the other on the context [ctx], each in the heap that the
    call before it left: the name of every test with the error that its
    call returned, and the heap after the last call. *)
Fixpoint callsOf (Call : Value -> list Value -> Heap -> (Value + error) * Heap)
    (ctx : Value) (entries : list (string * Value)) (h : Heap)
  : list (string * option error) * Heap :=
  match entries with
  | [] => ([], h)
  | entry :: rest =>
    if isTest entry then
      let (r, h1) := Call entry.2 [ctx] h in
      let (calls, h2) := callsOf Call ctx rest h1 in
      ((entry.1, match r with inl _ => None | inr e => Some e end) :: calls, h2)
    else callsOf Call ctx rest h
  end.

(** The failure messages that [RunTests] builds for a history of calls. *)
Definition failureMessages (ran : list (string * option error)) : list string :=
  omap (fun entry : string * option error =>
          match entry.2 with
          | Some err =>
            Some ("Test did not exit cleanly (" +:+ entry.1 +:+ "): " +:+ errorMessage err)
          | None => None
          end) ran.

Definition passed (entry : string * option error) : bool :=
  match entry.2 with
  | None => true
  | Some _ => false
  end.

(** The position of the first element that is not a record. *)
Fixpoint firstNonRecord (elems : list Value) : option nat :=
  match elems with
  | [] => None
  | v :: rest =>
    match AsProtoMessage v with
    | None => Some 0
    | Some _ => S <$> firstNonRecord rest
    end
  end.

(** The heap in which [Main] and [RunTests] call into the interpreter for
    the first time, and the dictionary they pass as [ctx.vars]. *)
Definition varsRefAt (h : Heap) : nat := (newDict h).1.
Definition heapAtCall (opts : list ExecOption) (h : Heap) : Heap :=
  applyAll opts (mkExecOptions (varsRefAt h)) (newDict h).2.

(** The variables that a list of options puts into [ctx.vars]: every
    [WithVars] adds its entries, later options over earlier ones. *)
Definition mergedVars (opts : list ExecOption) : StringDict :=
  fold_left (fun d opt => match opt with WithVars vs => vs ∪ d end) opts ∅.

(** The handle that [Tests] makes for an entry of the locals. *)
Definition newTest (entry : string * Value) : Test :=
  mkTest entry.1 entry.2 PASS 0 false None.

End Harness.

(** ** Loading a configuration ([Load] and its options) *)

Module Loading.

Import Loader.

(** What [Load] finds around it: the separator of the platform and its
    [filepath.Join] and [filepath.Dir], the verb [%q] of [fmt], the file
    system behind [ioutil.ReadFile], the values that package [impl]
    predeclares (the modules [hash], [json], [proto], [yaml] and [url]),
    and the interpreter, which runs a module with the registry installed
    in the [proto] module and the predeclared globals.  On every platform
    [filepath.Dir] returns a path that is not empty (for the empty path it
    returns [.]). *)
Record Runtime (ProtoRegistry : Type) : Type := mkRuntime {
  Separator : ascii;
  quote : string -> string;
  filepathJoin : list string -> string;
  filepathDir : string -> string;
  filepathDir_not_empty : forall path, filepathDir path <> "";
  ioutilReadFile : string -> string * option error;
  hashModule : Value;
  jsonModule : Value;
  protoModule : Value;
  yamlModule : Value;
  urlModule : Value;
  ExecFile : option ProtoRegistry -> StringDict -> string -> string -> script
}.
Arguments Separator {ProtoRegistry} _.
Arguments quote {ProtoRegistry} _ _.
Arguments filepathJoin {ProtoRegistry} _ _.
Arguments filepathDir {ProtoRegistry} _ _.
Arguments filepathDir_not_empty {ProtoRegistry} _ _.
Arguments ioutilReadFile {ProtoRegistry} _ _.
Arguments hashModule {ProtoRegistry} _.
Arguments jsonModule {ProtoRegistry} _.
Arguments protoModule {ProtoRegistry} _.
Arguments yamlModule {ProtoRegistry} _.
Arguments urlModule {ProtoRegistry} _.
Arguments ExecFile {ProtoRegistry} _ _ _ _ _.

Record loadOptions (ProtoRegistry : Type) : Type := mkLoadOptions {
  globals : StringDict;
  fileReader : FileReader;
  protoRegistry : option ProtoRegistry
}.
Arguments mkLoadOptions {ProtoRegistry} _ _ _.
Arguments globals {ProtoRegistry} _.
Arguments fileReader {ProtoRegistry} _.
Arguments protoRegistry {ProtoRegistry} _.

Section Options.

Context {ProtoRegistry : Type}.

(** [fnLoadOption]: a [LoadOption] is a function applied to the options. *)
Definition LoadOption : Type :=
  loadOptions ProtoRegistry -> loadOptions ProtoRegistry.

(** Setting in [opts.globals] every key of [extra]. *)
Definition addGlobals (extra : StringDict) : LoadOption :=
  fun opts =>
    mkLoadOptions (extra ∪ globals opts) (fileReader opts) (protoRegistry opts).

(** [WithGlobals(globals)]. *)
Definition WithGlobals (globals : StringDict) : LoadOption := addGlobals globals.

(** [WithTestHelpers()]; [helpers] is what executing [testing.star]
    returned when the option was made. *)
Definition WithTestHelpers (helpers : StringDict * option error) : go LoadOption :=
  match helpers.2 with
  | Some _ => Panic "unable to load testing.star file"
  | None => Return (addGlobals helpers.1)
  end.

(** [WithAssert()]; [loaded] is what [starlarktest.LoadAssertModule]
    returned. *)
Definition WithAssert (loaded : StringDict * option error) : go LoadOption :=
  match loaded.2 with
  | Some err =>
    Panic ("WithAssert: unable to load assert module: " ++ errorMessage err)
  | None => Return (addGlobals loaded.1)
  end.

(** [WithFileReader(r)]; [None] is the nil reader. *)
Definition WithFileReader (r : option FileReader) : go LoadOption :=
  match r with
  | None => Panic "WithFileReader: nil reader"
  | Some r =>
    Return (fun opts => mkLoadOptions (globals opts) r (protoRegistry opts))
  end.

(** [WithProtoRegistry(r)]; [None] is the nil registry. *)
Definition WithProtoRegistry (r : option ProtoRegistry) : go LoadOption :=
  match r with
  | None => Panic "WithProtoRegistry: nil registry"
  | Some r =>
    Return (fun opts => mkLoadOptions (globals opts) (fileReader opts) (Some r))
  end.

(** [opt.applyLoad(parsedOpts)] for every option, in order. *)
Definition applyLoadAll (opts : list LoadOption)
    (parsedOpts : loadOptions ProtoRegistry) : loadOptions ProtoRegistry :=
  fold_left (fun parsedOpts opt => opt parsedOpts) opts parsedOpts.

(** The three things an option of the package does to the options. *)
Inductive optionKind : Type :=
| GlobalsOption (extra : StringDict)
| ReaderOption (r : FileReader)
| RegistryOption (reg : ProtoRegistry).

Definition optionOf (k : optionKind) : LoadOption :=
  match k with
  | GlobalsOption extra => addGlobals extra
  | ReaderOption r =>
    fun opts => mkLoadOptions (globals opts) r (protoRegistry opts)
  | RegistryOption reg =>
    fun opts => mkLoadOptions (globals opts) (fileReader opts) (Some reg)
  end.

(** What a list of options leaves of each kind. *)
Definition globalsAfter (ks : list optionKind) (start : StringDict) : StringDict :=
  fold_left (fun acc k => match k with GlobalsOption extra => extra ∪ acc | _ => acc end)
    ks start.
Definition readerAfter (ks : list optionKind) (start : FileReader) : FileReader :=
  fold_left (fun acc k => match k with ReaderOption r => r | _ => acc end) ks start.
Definition registryAfter (ks : list optionKind) (start : option ProtoRegistry)
  : option ProtoRegistry :=
  fold_left (fun acc k => match k with RegistryOption reg => Some reg | _ => acc end)
    ks start.

Variable host : Runtime ProtoRegistry.

(** The globals that [Load] starts from. *)
Definition predeclared : StringDict :=
  {[ "fail" := BuiltinValue "fail";
     "hash" := hashModule host;
     "json" := jsonModule host;
     "proto" := protoModule host;
     "struct" := BuiltinValue "struct";
     "yaml" := yamlModule host;
     "url" := urlModule host ]}.

(** [Load]: a panic, or [None] when the depth bound of the loader was
    reached, or the Go pair of a configuration and an error. *)
Definition Load (fuel : nat) (filename : string) (opts : list LoadOption)
  : go (option (option Harness.Config * option error)) :=
  match Local.LocalFileReader (filepathDir host filename) with
  | Panic msg => Panic msg
  | Return defaultReader =>
    let parsedOpts :=
      applyLoadAll opts
        (mkLoadOptions predeclared
           (localReader (Separator host) (quote host) (filepathJoin host)
              (ioutilReadFile host) defaultReader)
           None) in
    match loadImpl (fileReader parsedOpts)
            (ExecFile host (protoRegistry parsedOpts) (globals parsedOpts))
            fuel filename with
    | None => Return None
    | Some ((configLocals, Some err), _) => Return (Some (None, Some err))
    | Some ((configLocals, None), _) =>
      Return (Some (Some (Harness.mkConfig filename (globals parsedOpts) configLocals),
                    None))
    end
  end.

(** The options that [Load] has before it applies [opts]. *)
Definition initialOptions (filename : string) : loadOptions ProtoRegistry :=
  mkLoadOptions predeclared
    (localReader (Separator host) (quote host) (filepathJoin host)
       (ioutilReadFile host) (Local.mkLocal (filepathDir host filename)))
    None.

End Options.

End Loading.

(** ** Concrete sessions *)

Module Examples.

Import Loader.

(** A [FileReader] over an in-memory table of files; module names are
    their own paths. *)
Definition mapReader (files : gmap string string) : FileReader :=
  mkFileReader
    (fun name _ => (name, None))
    (fun path =>
       match files !! path with
       | Some src => (src, None)
       | None => ("", Some (Errorf ("open " ++ path ++ ": no such file or directory")))
       end).

(** A module body that loads [mods] in turn and then defines [g].  As in
    Starlark, a [load] that fails aborts the module with an error that
    wraps the cause. *)
Fixpoint loadsThen (mods : list string) (g : StringDict) : script :=
  match mods with
  | [] => Finish g None
  | m :: rest =>
    LoadStmt m (fun r =>
      match r.2 with
      | Some e =>
        Finish ∅ (Some (Wrapped ("cannot load " ++ m ++ ": " ++ errorMessage e) e))
      | None => loadsThen rest g
      end)
  end.

(** An interpreter for modules that only import: [imports] gives the
    [load] statements of each module. *)
Definition importEngine (imports : gmap string (list string)) (path src : string)
  : script :=
  loadsThen (default [] (imports !! path)) {[ "origin" := StringValue path ]}.

(** Three modules in a cycle. *)
Definition cycleFiles : gmap string string :=
  {[ "a.sky" := "load b"; "b.sky" := "load c"; "c.sky" := "load a" ]}.
Definition cycleImports : gmap string (list string) :=
  {[ "a.sky" := ["b.sky"]; "b.sky" := ["c.sky"]; "c.sky" := ["a.sky"] ]}.

(** A module that imports itself. *)
Definition selfFiles : gmap string string := {[ "a.sky" := "load a" ]}.
Definition selfImports : gmap string (list string) := {[ "a.sky" := ["a.sky"] ]}.

(** A diamond: [a] imports [b] and [c], which both import [d]. *)
Definition diamondFiles : gmap string string :=
  {[ "a.sky" := "load b, c"; "b.sky" := "load d"; "c.sky" := "load d"; "d.sky" := "" ]}.
Definition diamondImports : gmap string (list string) :=
  {[ "a.sky" := ["b.sky"; "c.sky"]; "b.sky" := ["d.sky"]; "c.sky" := ["d.sky"] ]}.

(** [strconv.Quote], and so the verb [%q], on strings of ASCII bytes: the
    double quote and the backslash are escaped with a backslash, the
    control characters are written [\a], [\b], [\f], [\n], [\r], [\t],
    [\v] or as [\x] and two hexadecimal digits, and every other byte
    stands for itself.  (A byte above 127 is written as a [\x] escape
    too, as Go writes a byte that is not part of a UTF-8 sequence.) *)
Definition hexDigit (n : N) : ascii :=
  ascii_of_N (if (n <? 10)%N then 48 + n else 87 + n).

Definition escapeByte (c : ascii) : string :=
  let n := N_of_ascii c in
  let escaped (x : ascii) := String Local.backslash (String x EmptyString) in
  if (n =? 34)%N then escaped c
  else if (n =? 92)%N then escaped c
  else if (n =? 7)%N then escaped "a"%char
  else if (n =? 8)%N then escaped "b"%char
  else if (n =? 12)%N then escaped "f"%char
  else if (n =? 10)%N then escaped "n"%char
  else if (n =? 13)%N then escaped "r"%char
  else if (n =? 9)%N then escaped "t"%char
  else if (n =? 11)%N then escaped "v"%char
  else if (n <? 32)%N || (126 <? n)%N then
    String Local.backslash
      (String "x"%char (String (hexDigit (n / 16)) (String (hexDigit (n mod 16)) EmptyString)))
  else String c EmptyString.

Fixpoint escapeAll (s : string) : string :=
  match s with
  | EmptyString => EmptyString
  | String c rest => escapeByte c ++ escapeAll rest
  end.

Definition quoteASCII (s : string) : string :=
  String "034"%char (escapeAll s ++ String "034"%char EmptyString).

(** A file system with a root module and a library under [/cfg], and the
    default reader of a Unix host on it. *)
Definition diskFiles : gmap string string :=
  {[ "/cfg/main.sky" := "load lib/util.sky, ../lib/./util.sky";
     "/cfg/lib/util.sky" := "" ]}.
Definition diskImports : gmap string (list string) :=
  {[ "/cfg/main.sky" := ["lib/util.sky"; "../lib/./util.sky"] ]}.
Definition diskReader : FileReader :=
  localReader "/" quoteASCII Local.unixJoin (ReadFile (mapReader diskFiles))
    (Local.mkLocal "/cfg").

(** A root module whose second import is a file that is missing. *)
Definition brokenFiles : gmap string string :=
  {[ "a.sky" := "load b, gone"; "b.sky" := "load gone" ]}.
Definition brokenImports : gmap string (list string) :=
  {[ "a.sky" := ["b.sky"; "gone.sky"]; "b.sky" := ["gone.sky"] ]}.

(** A Unix host with the files of [diskFiles]; [dirOk] is the fact that
    [filepath.Dir] is never empty there. *)
Definition demoHost (dirOk : forall path, Local.unixDir path <> "")
  : Loading.Runtime unit :=
  Loading.mkRuntime unit "/" quoteASCII Local.unixJoin Local.unixDir dirOk
    (ReadFile (mapReader diskFiles))
    (ModuleValue "hash" []) (ModuleValue "json" []) (ModuleValue "proto" [])
    (ModuleValue "yaml" []) (ModuleValue "url" [])
    (fun _ _ => importEngine diskImports).

(** The session after a first request for a module whose file is missing. *)
Definition missingError : error := Errorf "open gone.sky: no such file or directory".
Definition afterMissing : session :=
  mkSession {[ "gone.sky" := Some (mkEntry ∅ (Some missingError)) ]}
            [EvResolve "gone.sky" ""; EvReadFile "gone.sky";
             EvReturn "gone.sky" ∅ (Some missingError)].

Import Harness.

Definition webService : Message := mkMessage "<demo.Service>" "web".
Definition dbService : Message := mkMessage "<demo.Service>" "db".

(** The dictionary behind the [vars] attribute of a context argument. *)
Definition varsOf (args : list Value) : option nat :=
  match args with
  | [ModuleValue _ [(_, DictValue ref)]] => Some ref
  | _ => None
  end.

Definition tick (n : Z) (h : Heap) : Heap := mkHeap (dicts h) (clock h + n).

(** An interpreter that knows a few functions by name.
    - [main_mixed] returns a record followed by a string;
    - [main_string_first] returns the same two values in the other order;
    - [main_records] returns two records; [main_none] returns [None];
    - [test_marks] writes the key [seen] into [ctx.vars] and passes;
    - [test_expects_clean] fails when [ctx.vars] has the key [seen]. *)
Definition demoCall (fn : Value) (args : list Value) (h : Heap)
  : (Value + error) * Heap :=
  match fn with
  | FunctionValue f =>
    if String.eqb f "main_mixed" then
      (inl (ListValue [MessageValue webService; StringValue "not a record"]), tick 3 h)
    else if String.eqb f "main_string_first" then
      (inl (ListValue [StringValue "not a record"; MessageValue webService]), tick 3 h)
    else if String.eqb f "main_records" then
      (inl (ListValue [MessageValue webService; MessageValue dbService]), tick 3 h)
    else if String.eqb f "main_none" then (inl NoneValue, tick 1 h)
    else if String.eqb f "test_marks" then
      match varsOf args with
      | Some ref => (inl NoneValue, tick 2 (SetKey ref "seen" (BoolValue true) h))
      | None => (inr (Errorf "test_marks: missing context"), h)
      end
    else if String.eqb f "test_expects_clean" then
      match varsOf args with
      | Some ref =>
        match dicts h !! ref ≫= (fun d => d !! "seen") with
        | Some _ => (inr (Errorf "fail: ctx.vars is not empty"), tick 2 h)
        | None => (inl NoneValue, tick 2 h)
        end
      | None => (inr (Errorf "test_expects_clean: missing context"), h)
      end
    else (inr (Errorf ("undefined function " ++ f)), h)
  | _ => (inr (Errorf ("not callable: " ++ typeOf fn)), h)
  end.

Definition emptyHeap : Heap := mkHeap ∅ 0.

Definition configWith (mainFn : string) : Config :=
  mkConfig "demo.sky" ∅ {[ "main" := FunctionValue mainFn ]}.

(** A configuration with two tests, and the two orders in which [range]
    may visit them. *)
Definition testEntries : list (string * Value) :=
  [("test_a", FunctionValue "test_marks");
   ("test_b", FunctionValue "test_expects_clean")].

Definition testConfig : Config :=
  mkConfig "demo_test.sky" ∅ (list_to_map testEntries).

Definition rangeForward (m : StringDict) : list (string * Value) := testEntries.
Definition rangeBackward (m : StringDict) : list (string * Value) := rev testEntries.

(** A configuration whose first test calls a function that the interpreter
    does not know, and so fails, followed by a helper that is no test and
    by a test that passes. *)
Definition brokenEntries : list (string * Value) :=
  [("test_broken", FunctionValue "no_such_function");
   ("helper", FunctionValue "main_none");
   ("test_fine", FunctionValue "test_marks")].

Definition brokenConfig : Config :=
  mkConfig "broken_test.sky" ∅ (list_to_map brokenEntries).

Definition rangeBroken (m : StringDict) : list (string * Value) := brokenEntries.

End Examples.

(** * Properties of the loader *)

Import Loader.

Lemma executed_app (a b : list event) : executed (a ++ b) = executed a ++ executed b.
Proof. unfold executed. apply omap_app. Qed.

Lemma fetched_app (a b : list event) : fetched (a ++ b) = fetched a ++ fetched b.
Proof. unfold fetched. apply omap_app. Qed.

Lemma happened_refl (s : session) : happened s s [].
Proof.
  split; simpl; auto.
  - by rewrite app_nil_r.
  - constructor.
  - constructor.
  - intros p Hp. inversion Hp.
  - intros p Hp. inversion Hp.
  - intros p g e Hp. inversion Hp.
Qed.

Lemma happened_trans (s1 s2 s3 : session) (n1 n2 : list event) :
  happened s1 s2 n1 -> happened s2 s3 n2 -> happened s1 s3 (n1 ++ n2).
Proof.
  intros H1 H2. split.
  - rewrite (hap_trace _ _ _ H2), (hap_trace _ _ _ H1). by rewrite app_assoc.
  - intros p e Hp. eapply hap_done; eauto. eapply hap_done; eauto.
  - intros p Hp. eapply hap_pending; eauto. eapply hap_pending; eauto.
  - intros p Hp. destruct (hap_absent _ _ _ H1 p Hp) as [Hn | [e He]].
    + eapply hap_absent; eauto.
    + right. exists e. eapply hap_done; eauto.
  - rewrite executed_app. apply NoDup_app. split; [eapply hap_once; eauto|].
    split; [|eapply hap_once; eauto].
    intros p Hp1 Hp2.
    destruct (hap_executed _ _ _ H1 p Hp1) as [_ [e He]].
    destruct (hap_executed _ _ _ H2 p Hp2) as [Hn _]. congruence.
  - rewrite fetched_app. apply NoDup_app. split; [eapply hap_fetch_once; eauto|].
    split; [|eapply hap_fetch_once; eauto].
    intros p Hp1 Hp2.
    destruct (hap_fetched _ _ _ H1 p Hp1) as [_ [e He]].
    destruct (hap_fetched _ _ _ H2 p Hp2) as [Hn _]. congruence.
  - intros p. rewrite executed_app, elem_of_app. intros [Hp | Hp].
    + destruct (hap_executed _ _ _ H1 p Hp) as [Hn [e He]]. split; [done|].
      exists e. eapply hap_done; eauto.
    + destruct (hap_executed _ _ _ H2 p Hp) as [Hn He]. split; [|done].
      destruct (cache s1 !! p) as [[e|]|] eqn:Hc; [| |done].
      * rewrite (hap_done _ _ _ H1 p e Hc) in Hn. done.
      * rewrite (hap_pending _ _ _ H1 p Hc) in Hn. done.
  - intros p. rewrite fetched_app, elem_of_app. intros [Hp | Hp].
    + destruct (hap_fetched _ _ _ H1 p Hp) as [Hn [e He]]. split; [done|].
      exists e. eapply hap_done; eauto.
    + destruct (hap_fetched _ _ _ H2 p Hp) as [Hn He]. split; [|done].
      destruct (cache s1 !! p) as [[e|]|] eqn:Hc; [| |done].
      * rewrite (hap_done _ _ _ H1 p e Hc) in Hn. done.
      * rewrite (hap_pending _ _ _ H1 p Hc) in Hn. done.
  - intros p g e. rewrite elem_of_app. intros [Hp | Hp].
    + destruct (hap_returned _ _ _ H1 p g e Hp) as [Hd | Hc]; [|by right].
      left. eapply hap_done; eauto.
    + eapply hap_returned; eauto.
Qed.

Section LoadInvariant.

Variable reader : FileReader.
Variable ExecFile : string -> string -> script.

Lemma happened_emit_other (s : session) (ev : event) :
  match ev with EvResolve _ _ => True | _ => False end ->
  happened s (emit ev s) [ev].
Proof.
  destruct ev; try done. intros _. split; simpl; auto.
  - constructor.
  - constructor.
  - intros p Hp. inversion Hp.
  - intros p Hp. inversion Hp.
  - intros p g e Hp. apply list_elem_of_singleton in Hp. discriminate.
Qed.

Lemma execScript_happened (callback : string -> session -> outcome) :
  (forall m s r s', callback m s = Some (r, s') -> exists new, happened s s' new) ->
  forall body s r s', execScript callback body s = Some (r, s') ->
    exists new, happened s s' new.
Proof.
  intros Hcb body. induction body as [g e | m k IH]; intros s r s' Hex; simpl in Hex.
  - inversion Hex; subst. exists []. apply happened_refl.
  - destruct (callback m s) as [[r1 s1]|] eqn:Hc; [|done].
    destruct (Hcb _ _ _ _ Hc) as [n1 H1].
    destruct (IH _ _ _ _ Hex) as [n2 H2].
    exists (n1 ++ n2). eapply happened_trans; eauto.
Qed.

Lemma load_happened (fuel : nat) :
  forall thread name s r s',
    load reader ExecFile fuel thread name s = Some (r, s') ->
    exists new, happened s s' new.
Proof.
  induction fuel as [|fuel IH]; intros thread name s r s' Hl; [done|].
  simpl in Hl.
  destruct (Resolve reader name (fromPathOf thread)) as [P [rerr|]] eqn:Hres.
  { inversion Hl; subst. eexists. by apply happened_emit_other. }
  destruct (cache s !! P) as [[en|]|] eqn:Hc.
  - (* memoized *)
    inversion Hl; subst; clear Hl.
    exists [EvResolve name (fromPathOf thread); EvReturn P (globals en) (err en)].
    split; simpl; auto.
    + by rewrite <- app_assoc.
    + constructor.
    + constructor.
    + intros p Hp. inversion Hp.
    + intros p Hp. inversion Hp.
    + intros p g e Hp. apply elem_of_cons in Hp as [Hp|Hp]; [done|].
      apply list_elem_of_singleton in Hp. inversion Hp; subst.
      left. rewrite Hc. by destruct en.
  - (* pending: cycle *)
    inversion Hl; subst; clear Hl.
    exists [EvResolve name (fromPathOf thread); EvReturn P ∅ (Some cycleError)].
    split; simpl; auto.
    + by rewrite <- app_assoc.
    + constructor.
    + constructor.
    + intros p Hp. inversion Hp.
    + intros p Hp. inversion Hp.
    + intros p g e Hp. apply elem_of_cons in Hp as [Hp|Hp]; [done|].
      apply list_elem_of_singleton in Hp. inversion Hp; subst. by right.
  - destruct (ReadFile reader P) as [src [ferr|]] eqn:Hrd.
    + (* the fetch failed *)
      inversion Hl; subst; clear Hl.
      exists [EvResolve name (fromPathOf thread); EvReadFile P; EvReturn P ∅ (Some ferr)].
      split; simpl.
      * by rewrite <- !app_assoc.
      * intros p e Hp. rewrite lookup_insert_ne; [done|]. congruence.
      * intros p Hp. rewrite lookup_insert_ne; [done|]. congruence.
      * intros p Hp. destruct (decide (P = p)) as [->|Hne].
        -- right. eexists. apply lookup_insert_eq.
        -- left. by rewrite lookup_insert_ne.
      * constructor.
      * apply NoDup_singleton.
      * intros p Hp. inversion Hp.
      * intros p Hp. apply list_elem_of_singleton in Hp. subst. split; [done|].
        eexists. apply lookup_insert_eq.
      * intros p g e Hp. apply elem_of_cons in Hp as [Hp|Hp]; [done|].
        apply elem_of_cons in Hp as [Hp|Hp]; [done|].
        apply list_elem_of_singleton in Hp. inversion Hp; subst.
        left. apply lookup_insert_eq.
    + (* the module is executed *)
      match type of Hl with context [execScript ?cb ?b ?s0] =>
        destruct (execScript cb b s0) as [[[g e] s2]|] eqn:Hex; [|done];
        set (s1 := s0) in *
      end.
      inversion Hl; subst r s'; clear Hl.
      destruct (execScript_happened _ (IH (P :: thread)) _ _ _ _ Hex) as [nb Hb].
      exists ([EvResolve name (fromPathOf thread); EvReadFile P; EvExecFile P]
                ++ nb ++ [EvReturn P g e]).
      assert (Hp1 : cache s1 !! P = Some None) by (subst s1; simpl; apply lookup_insert_eq).
      assert (Hp2 : cache s2 !! P = Some None) by (eapply hap_pending; eauto).
      assert (Hother : forall p, p <> P -> cache s1 !! p = cache s !! p).
      { intros p Hne. subst s1; simpl. by rewrite lookup_insert_ne. }
      split; simpl.
      * rewrite (hap_trace _ _ _ Hb). subst s1; simpl. by rewrite <- !app_assoc.
      * intros p en Hp. assert (p <> P) by congruence.
        rewrite lookup_insert_ne; [|done]. eapply hap_done; eauto. by rewrite Hother.
      * intros p Hp. assert (p <> P) by congruence.
        rewrite lookup_insert_ne; [|done]. eapply hap_pending; eauto. by rewrite Hother.
      * intros p Hp. destruct (decide (P = p)) as [->|Hne].
        -- right. eexists. apply lookup_insert_eq.
        -- rewrite lookup_insert_ne; [|done]. eapply hap_absent; eauto.
           by rewrite Hother.
      * rewrite executed_app. simpl. apply NoDup_cons. split.
        -- rewrite app_nil_r. intros Hin.
           destruct (hap_executed _ _ _ Hb P Hin) as [Hn _]. congruence.
        -- rewrite app_nil_r. eapply hap_once; eauto.
      * rewrite fetched_app. simpl. apply NoDup_cons. split.
        -- rewrite app_nil_r. intros Hin.
           destruct (hap_fetched _ _ _ Hb P Hin) as [Hn _]. congruence.
        -- rewrite app_nil_r. eapply hap_fetch_once; eauto.
      * intros p. rewrite executed_app. simpl. rewrite app_nil_r.
        intros Hp. apply elem_of_cons in Hp as [->|Hp].
        -- split; [done|]. eexists. apply lookup_insert_eq.
        -- destruct (hap_executed _ _ _ Hb p Hp) as [Hn [en He]].
           assert (p <> P) by congruence. split; [by rewrite <- Hother|].
           exists en. by rewrite lookup_insert_ne.
      * intros p. rewrite fetched_app. simpl. rewrite app_nil_r.
        intros Hp. apply elem_of_cons in Hp as [->|Hp].
        -- split; [done|]. eexists. apply lookup_insert_eq.
        -- destruct (hap_fetched _ _ _ Hb p Hp) as [Hn [en He]].
           assert (p <> P) by congruence. split; [by rewrite <- Hother|].
           exists en. by rewrite lookup_insert_ne.
      * intros p g' e' Hp.
        apply elem_of_cons in Hp as [Hp|Hp]; [done|].
        apply elem_of_cons in Hp as [Hp|Hp]; [done|].
        apply elem_of_cons in Hp as [Hp|Hp]; [done|].
        apply elem_of_app in Hp as [Hp|Hp].
        -- destruct (hap_returned _ _ _ Hb p g' e' Hp) as [Hd|Hcy]; [|by right].
           assert (p <> P) by congruence. left. by rewrite lookup_insert_ne.
        -- apply list_elem_of_singleton in Hp. inversion Hp; subst.
           left. apply lookup_insert_eq.
Qed.

End LoadInvariant.

Section LoadTermination.

Variable reader : FileReader.
Variable ExecFile : string -> string -> script.

Lemma happened_dom (s s' : session) (new : list event) :
  happened s s' new -> dom (cache s) ⊆ dom (cache s').
Proof.
  intros H p Hp. apply elem_of_dom in Hp as [[en|] Hp]; apply elem_of_dom.
  - rewrite (hap_done _ _ _ H p en Hp). eauto.
  - rewrite (hap_pending _ _ _ H p Hp). eauto.
Qed.

Variable readable : gset string.
Hypothesis readable_spec :
  forall p src, ReadFile reader p = (src, None) -> p ∈ readable.

Lemma execScript_terminates (callback : string -> session -> outcome) (bound : nat) :
  (forall m s, size (readable ∖ dom (cache s)) < bound ->
     exists r s', callback m s = Some (r, s') /\ exists new, happened s s' new) ->
  forall body s, size (readable ∖ dom (cache s)) < bound ->
    exists r s', execScript callback body s = Some (r, s').
Proof.
  intros Hcb body. induction body as [g e | m k IH]; intros s Hs; simpl.
  - eauto.
  - destruct (Hcb m s Hs) as (r1 & s1 & -> & new & Hh).
    apply IH. eapply Nat.le_lt_trans; [|exact Hs].
    apply subseteq_size. apply happened_dom in Hh.
    intros p Hp. apply elem_of_difference in Hp as [Hp1 Hp2].
    apply elem_of_difference. split; [done|]. intros Hp3. apply Hp2. by apply Hh.
Qed.

Lemma load_terminates (fuel : nat) :
  forall thread name s, size (readable ∖ dom (cache s)) < fuel ->
    exists r s', load reader ExecFile fuel thread name s = Some (r, s').
Proof.
  induction fuel as [|fuel IH]; intros thread name s Hs; [lia|].
  simpl.
  destruct (Resolve reader name (fromPathOf thread)) as [P [rerr|]] eqn:Hres; [eauto|].
  destruct (cache s !! P) as [[en|]|] eqn:Hc; [eauto|eauto|].
  destruct (ReadFile reader P) as [src [ferr|]] eqn:Hrd; [eauto|].
  match goal with |- context [execScript ?cb ?b ?s0] =>
    destruct (execScript_terminates cb fuel) with (body := b) (s := s0)
      as (r & s2 & Hex)
  end.
  - intros m s0 Hs0. destruct (IH (P :: thread) m s0 Hs0) as (r & s' & Hl).
    exists r, s'. split; [done|]. eapply load_happened; eauto.
  - simpl. rewrite dom_insert_L.
    assert (HP : P ∈ readable ∖ dom (cache s)).
    { apply elem_of_difference. split; [eauto|]. by apply not_elem_of_dom. }
    assert (size (readable ∖ ({[P]} ∪ dom (cache s))) < size (readable ∖ dom (cache s))).
    { apply subset_size. split.
      - intros p Hp. apply elem_of_difference in Hp as [Hp1 Hp2].
        apply elem_of_difference. split; [done|].
        intros Hp3. apply Hp2. apply elem_of_union. by right.
      - intros Hsub. specialize (Hsub P HP).
        apply elem_of_difference in Hsub as [_ Hsub].
        apply Hsub. apply elem_of_union. left. by apply elem_of_singleton. }
    lia.
  - rewrite Hex. destruct r as [g e]. eauto.
Qed.

End LoadTermination.

Section LoadPropagation.

Variable reader : FileReader.
Variable ExecFile : string -> string -> script.
Hypothesis engine_propagates : forall p src, propagates (ExecFile p src).

Lemma execScript_blames (callback : string -> session -> outcome) :
  (forall m s r s', callback m s = Some (r, s') ->
     exists new, trace s' = trace s ++ new /\ blames new r) ->
  forall body s r s', propagates body ->
    execScript callback body s = Some (r, s') ->
    exists new, trace s' = trace s ++ new /\ blames new r.
Proof.
  intros Hcb body. induction body as [g e | m k IH]; intros s r s' Hp Hex; simpl in Hex.
  - inversion Hex; subst. exists []. split; [by rewrite app_nil_r|].
    intros p g' e' Hin. inversion Hin.
  - destruct (callback m s) as [[[g1 [e1|]] s1]|] eqn:Hc; [| |done].
    + destruct Hp as [Hf _]. destruct (Hf g1 e1) as (g' & e' & Hk & Hroot).
      rewrite Hk in Hex. simpl in Hex. inversion Hex; subst.
      destruct (Hcb _ _ _ _ Hc) as (n1 & Ht & Hb).
      exists n1. split; [done|].
      intros p g e Hin. destruct (Hb p g e Hin) as (e0 & He0 & Hr0).
      simpl in He0. inversion He0; subst. exists e'. split; [done|]. congruence.
    + destruct Hp as [_ Hs]. destruct (Hcb _ _ _ _ Hc) as (n1 & Ht1 & Hb1).
      destruct (IH _ _ _ _ (Hs g1) Hex) as (n2 & Ht2 & Hb2).
      exists (n1 ++ n2). split; [by rewrite Ht2, Ht1, app_assoc|].
      intros p g e Hin. apply elem_of_app in Hin as [Hin|Hin]; [|eauto].
      destruct (Hb1 p g e Hin) as (e0 & He0 & _). discriminate.
Qed.

Lemma load_blames (fuel : nat) :
  forall thread name s r s',
    load reader ExecFile fuel thread name s = Some (r, s') ->
    exists new, trace s' = trace s ++ new /\ blames new r.
Proof.
  induction fuel as [|fuel IH]; intros thread name s r s' Hl; [done|].
  simpl in Hl.
  destruct (Resolve reader name (fromPathOf thread)) as [P [rerr|]] eqn:Hres.
  { inversion Hl; subst. eexists. split; [reflexivity|].
    intros p g e Hin. apply list_elem_of_singleton in Hin. discriminate. }
  assert (Hlast : forall pre g e, (forall ev, ev ∈ pre ->
              match ev with EvReturn _ _ _ => False | _ => True end) ->
            blames (pre ++ [EvReturn P g e]) (g, e)).
  { intros pre g e Hpre p g' e' Hin. apply elem_of_app in Hin as [Hin|Hin].
    - by apply Hpre in Hin.
    - apply list_elem_of_singleton in Hin. inversion Hin; subst. simpl. eauto. }
  destruct (cache s !! P) as [[en|]|] eqn:Hc.
  - inversion Hl; subst; clear Hl. simpl. eexists. rewrite <- app_assoc.
    split; [reflexivity|]. apply (Hlast [_]).
    intros ev Hev. apply list_elem_of_singleton in Hev. by subst.
  - inversion Hl; subst; clear Hl. simpl. eexists. rewrite <- app_assoc.
    split; [reflexivity|]. apply (Hlast [_]).
    intros ev Hev. apply list_elem_of_singleton in Hev. by subst.
  - destruct (ReadFile reader P) as [src [ferr|]] eqn:Hrd.
    + inversion Hl; subst; clear Hl. simpl. eexists. rewrite <- !app_assoc.
      split; [reflexivity|]. apply (Hlast [_; _]).
      intros ev Hev. apply elem_of_cons in Hev as [->|Hev]; [done|].
      apply list_elem_of_singleton in Hev. by subst.
    + match type of Hl with context [execScript ?cb ?b ?s0] =>
        destruct (execScript cb b s0) as [[[g e] s2]|] eqn:Hex; [|done]
      end.
      inversion Hl; subst r s'; clear Hl.
      destruct (execScript_blames _ (IH (P :: thread)) _ _ _ _
                  (engine_propagates P src) Hex) as (nb & Ht & Hb).
      simpl in *. rewrite Ht. rewrite <- !app_assoc. simpl.
      eexists. split; [reflexivity|].
      intros p g' e' Hin.
      apply elem_of_cons in Hin as [Hin|Hin]; [done|].
      apply elem_of_cons in Hin as [Hin|Hin]; [done|].
      apply elem_of_cons in Hin as [Hin|Hin]; [done|].
      apply elem_of_app in Hin as [Hin|Hin]; [eauto|].
      apply list_elem_of_singleton in Hin. inversion Hin; subst. simpl. eauto.
Qed.

Lemma leadsToCycle_fails (visiting : list string) (P : string) (n : nat) :
  leadsToCycle reader ExecFile visiting P n ->
  forall fuel thread name s,
    n < fuel ->
    Resolve reader name (fromPathOf thread) = (P, None) ->
    (forall p, p ∈ visiting -> cache s !! p = Some None) ->
    (forall p, p ∉ visiting -> cache s !! p = None) ->
    exists g e s',
      load reader ExecFile fuel thread name s = Some ((g, Some e), s') /\
      rootCause e = cycleError.
Proof.
  induction 1 as [visiting P Hin | visiting P src m k P' n Hout Hrd Hbody Hnext _ IH];
    intros fuel thread name s Hfuel Hres Hpend Habs;
    (destruct fuel as [|fuel]; [lia|]); simpl; rewrite Hres; simpl.
  - rewrite (Hpend P Hin). eauto.
  - rewrite (Habs P Hout), Hrd, Hbody. simpl.
    match goal with |- context [load reader ExecFile fuel (P :: thread) m ?s0] =>
      destruct (IH fuel (P :: thread) m s0) as (g & e & s2 & Hl & Hroot)
    end.
    + lia.
    + exact Hnext.
    + intros p Hp. simpl. apply elem_of_cons in Hp as [->|Hp].
      * apply lookup_insert_eq.
      * destruct (decide (P = p)) as [->|Hne]; [apply lookup_insert_eq|].
        rewrite lookup_insert_ne; [|done]. by apply Hpend.
    + intros p Hp. simpl. apply not_elem_of_cons in Hp as [Hne Hp].
      rewrite lookup_insert_ne; [|done]. by apply Habs.
    + rewrite Hl.
      pose proof (engine_propagates P src) as Hp. rewrite Hbody in Hp.
      destruct Hp as [Hf _]. destruct (Hf g e) as (g' & e' & Hk & Hr).
      rewrite Hk. simpl. eexists _, _, _. split; [reflexivity|]. congruence.
Qed.

End LoadPropagation.

Section LoadRequests.

Variable reader : FileReader.
Variable ExecFile : string -> string -> script.

(** A request that resolves to a path returns the pair that the cache
    then holds for the path, unless it found the path pending; the last
    step of its trace is the return of that pair. *)
Lemma load_returns_recorded (fuel : nat) (thread : Thread) (name : string)
    (s : session) (r : StringDict * option error) (s' : session) (P : string) :
  Resolve reader name (fromPathOf thread) = (P, None) ->
  load reader ExecFile fuel thread name s = Some (r, s') ->
  (exists pre, trace s' = trace s ++ pre ++ [EvReturn P r.1 r.2]) /\
  (cache s' !! P = Some (Some (mkEntry r.1 r.2)) \/
   (cache s !! P = Some None /\ r = (∅, Some cycleError))).
Proof.
  intros Hres Hl. destruct fuel as [|fuel]; [done|]. simpl in Hl.
  rewrite Hres in Hl.
  destruct (cache s !! P) as [[en|]|] eqn:Hc.
  - inversion Hl; subst; clear Hl. simpl. split.
    + exists [EvResolve name (fromPathOf thread)]. by rewrite <- app_assoc.
    + left. rewrite Hc. by destruct en.
  - inversion Hl; subst; clear Hl. simpl. split.
    + exists [EvResolve name (fromPathOf thread)]. by rewrite <- app_assoc.
    + by right.
  - destruct (ReadFile reader P) as [src [ferr|]] eqn:Hrd.
    + inversion Hl; subst; clear Hl. simpl. split.
      * exists [EvResolve name (fromPathOf thread); EvReadFile P].
        by rewrite <- !app_assoc.
      * left. apply lookup_insert_eq.
    + match type of Hl with context [execScript ?cb ?b ?s0] =>
        destruct (execScript cb b s0) as [[[g e] s2]|] eqn:Hex; [|done]
      end.
      inversion Hl; subst r s'; clear Hl.
      destruct (execScript_happened _ (load_happened reader ExecFile fuel (P :: thread))
                  _ _ _ _ Hex) as [nb Hb].
      simpl. split.
      * exists ([EvResolve name (fromPathOf thread); EvReadFile P; EvExecFile P] ++ nb).
        rewrite (hap_trace _ _ _ Hb). simpl. by rewrite <- !app_assoc.
      * left. apply lookup_insert_eq.
Qed.

(** A request for a module that is absent and can be read runs the body of
    the module from a session in which the module is pending, and records
    what the body returned once it has returned. *)
Lemma load_executes_pending (fuel : nat) (thread : Thread) (name : string)
    (s : session) (P src : string) :
  Resolve reader name (fromPathOf thread) = (P, None) ->
  cache s !! P = None ->
  ReadFile reader P = (src, None) ->
  load reader ExecFile (S fuel) thread name s
  = match execScript (load reader ExecFile fuel (P :: thread)) (ExecFile P src)
            (mkSession (<[P := None]> (cache s))
               (trace s ++ [EvResolve name (fromPathOf thread);
                            EvReadFile P; EvExecFile P])) with
    | None => None
    | Some ((g, e), s2) =>
      Some ((g, e), mkSession (<[P := Some (mkEntry g e)]> (cache s2))
                      (trace s2 ++ [EvReturn P g e]))
    end.
Proof.
  intros Hres Hc Hrd. simpl. rewrite Hres. simpl. rewrite Hc, Hrd.
  unfold emit, setCache. simpl. rewrite <- !app_assoc. simpl.
  by destruct (execScript _ _ _) as [[[g e] s2]|].
Qed.

(** A marker that is pending when a module body starts is pending at every
    [load] statement of the body. *)
Lemma callbackCalls_pending (callback : string -> session -> outcome) (q : string) :
  (forall m s r s', callback m s = Some (r, s') ->
     cache s !! q = Some None -> cache s' !! q = Some None) ->
  forall body s m sx,
    cache s !! q = Some None ->
    (m, sx) ∈ callbackCalls callback body s ->
    cache sx !! q = Some None.
Proof.
  intros Hcb body. induction body as [g e | m0 k IH]; intros s m sx Hq Hin; simpl in Hin.
  - inversion Hin.
  - apply elem_of_cons in Hin as [Heq|Hin]; [by inversion Heq; subst|].
    destruct (callback m0 s) as [[r1 s1]|] eqn:Hc; [|inversion Hin].
    eapply IH; [|exact Hin]. eapply Hcb; eauto.
Qed.

Lemma load_keeps_pending (fuel : nat) (thread : Thread) (q : string) :
  forall m s r s',
    load reader ExecFile fuel thread m s = Some (r, s') ->
    cache s !! q = Some None -> cache s' !! q = Some None.
Proof.
  intros m s r s' Hl Hq.
  destruct (load_happened _ _ _ _ _ _ _ _ Hl) as [new Hh].
  eapply hap_pending; eauto.
Qed.

End LoadRequests.

(** ** The claims about the loader *)

Import Examples.

Example afterMissing_reached :
  loadImpl (mapReader ∅) (importEngine ∅) 1 "gone.sky"
  = Some ((∅, Some missingError), afterMissing).
Proof. reflexivity. Qed.

(** Two spellings of one module resolve to one path: it is executed once. *)
Example default_reader_session :
  (fun o => match o with Some (r, s) => Some (r.2, executed (trace s)) | None => None end)
    (loadImpl diskReader (importEngine diskImports) 2 "/cfg/main.sky")
  = Some (None, ["/cfg/main.sky"; "/cfg/lib/util.sky"]).
Proof. vm_compute. reflexivity. Qed.

Example cycle_of_three_trace :
  (fun o => match o with Some (r, s) => Some (r.2, executed (trace s)) | None => None end)
    (loadImpl (mapReader cycleFiles) (importEngine cycleImports) 4 "a.sky")
  = Some (Some (Wrapped "cannot load b.sky: cannot load c.sky: cannot load a.sky: cycle in load graph"
           (Wrapped "cannot load c.sky: cannot load a.sky: cycle in load graph"
             (Wrapped "cannot load a.sky: cycle in load graph" cycleError))),
          ["a.sky"; "b.sky"; "c.sky"]).
Proof. vm_compute. reflexivity. Qed.

(** A request that finds a finished entry returns it, after one call of
    [Resolve] and nothing else. *)
Lemma load_finished_entry
    (reader : FileReader) (ExecFile : string -> string -> script)
    (fuel : nat) (thread : Thread) (name : string) (s : session)
    (P : string) (en : cacheEntry) :
  Resolve reader name (fromPathOf thread) = (P, None) ->
  cache s !! P = Some (Some en) ->
  load reader ExecFile (S fuel) thread name s
  = Some ((globals en, err en),
          mkSession (cache s)
            (trace s ++ [EvResolve name (fromPathOf thread);
                         EvReturn P (globals en) (err en)])).
Proof.
  intros Hres Hc. simpl. rewrite Hres. simpl. rewrite Hc.
  unfold emit. simpl. by rewrite <- app_assoc.
Qed.

(** C1, as amended.  In every load session that returns, whatever the
    import graph, no module path is handed to [starlark.ExecFile] twice,
    every executed module ends with a finished cache entry, and every
    return that the trace records is either that of the symbol table and
    error of the finished entry of its path, or (for a request that
    arrived while the module was still executing) that of the empty table
    and the cycle error.  A finished entry never changes, and a request
    that finds one returns its symbol table and error without executing
    anything.  Every request whose name resolves to a path, first or
    later, returns the symbol table and error that the cache holds for
    that path when the request returns, or else found the path pending
    and returns the empty table and the cycle error; the return recorded
    last in the trace is the pair the request returned. *)
Theorem load_session_executes_once
    (reader : FileReader) (ExecFile : string -> string -> script) :
  (forall fuel filename r final,
     loadImpl reader ExecFile fuel filename = Some (r, final) ->
     NoDup (executed (trace final)) /\
     (forall p, p ∈ executed (trace final) ->
        exists en, cache final !! p = Some (Some en)) /\
     (forall p g e, EvReturn p g e ∈ trace final ->
        cache final !! p = Some (Some (mkEntry g e)) \/
        (g = ∅ /\ e = Some cycleError))) /\
  (forall fuel thread name s r s' P en,
     cache s !! P = Some (Some en) ->
     load reader ExecFile fuel thread name s = Some (r, s') ->
     cache s' !! P = Some (Some en)) /\
  (forall fuel thread name s P en,
     Resolve reader name (fromPathOf thread) = (P, None) ->
     cache s !! P = Some (Some en) ->
     exists s',
       load reader ExecFile (S fuel) thread name s
         = Some ((globals en, err en), s') /\
       cache s' = cache s /\
       executed (trace s') = executed (trace s)) /\
  (forall fuel thread name s r s' P,
     Resolve reader name (fromPathOf thread) = (P, None) ->
     load reader ExecFile fuel thread name s = Some (r, s') ->
     (exists pre, trace s' = trace s ++ pre ++ [EvReturn P r.1 r.2]) /\
     (cache s' !! P = Some (Some (mkEntry r.1 r.2)) \/
      (cache s !! P = Some None /\ r = (∅, Some cycleError)))).
Proof.
  split; [|split; [|split]].
  - unfold loadImpl. intros fuel filename r final Hl.
    destruct (load_happened _ _ _ _ _ _ _ _ Hl) as [new Hh].
    assert (Ht : trace final = new) by (rewrite (hap_trace _ _ _ Hh); reflexivity).
    rewrite Ht. split; [eapply hap_once; eauto|]. split.
    + intros p Hp. eapply hap_executed; eauto.
    + intros p g e Hp. eapply hap_returned; eauto.
  - intros fuel thread name s r s' P en Hc Hl.
    destruct (load_happened _ _ _ _ _ _ _ _ Hl) as [new Hh].
    eapply hap_done; eauto.
  - intros fuel thread name s P en Hres Hc. eexists. split.
    + by apply load_finished_entry.
    + simpl. split; [done|]. rewrite executed_app. simpl. by rewrite app_nil_r.
  - intros fuel thread name s r s' P Hres Hl.
    exact (load_returns_recorded reader ExecFile fuel thread name s r s' P Hres Hl).
Qed.

Lemma load_session_executes_once_witness :
  exists r final,
    loadImpl (mapReader diamondFiles) (importEngine diamondImports) 3 "a.sky"
      = Some (r, final) /\
    executed (trace final) = ["a.sky"; "b.sky"; "d.sky"; "c.sky"] /\
    NoDup (executed (trace final)) /\
    cache final !! "a.sky" = Some (Some (mkEntry r.1 r.2)).
Proof.
  destruct (loadImpl (mapReader diamondFiles) (importEngine diamondImports) 3 "a.sky")
    as [[r final]|] eqn:Hrun.
  - exists r, final. split; [reflexivity|].
    destruct (load_session_executes_once (mapReader diamondFiles)
                (importEngine diamondImports)) as (Hsession & _ & _ & Hrequest).
    split; [|split].
    + vm_compute in Hrun. inversion Hrun. reflexivity.
    + exact (proj1 (Hsession _ _ _ _ Hrun)).
    + destruct (Hrequest 3 [] "a.sky" (mkSession ∅ []) r final "a.sky" eq_refl Hrun)
        as [_ [Hdone | [Hpending _]]]; [exact Hdone|].
      simpl in Hpending. rewrite lookup_empty in Hpending. discriminate.
  - vm_compute in Hrun. discriminate.
Defined.

(** C1 as stated fails on a module that imports itself: the inner
    requester receives the cycle error, the entry recorded by the
    execution holds another error. *)
Lemma self_import_requester_differs :
  exists r final,
    loadImpl (mapReader selfFiles) (importEngine selfImports) 2 "a.sky"
      = Some (r, final) /\
    NoDup (executed (trace final)) /\
    ~ (forall p g e, EvReturn p g e ∈ trace final ->
         cache final !! p = Some (Some (mkEntry g e))).
Proof.
  eexists _, _. split; [vm_compute; reflexivity|]. split.
  - vm_compute. apply NoDup_singleton.
  - intros H. specialize (H "a.sky" ∅ (Some cycleError)).
    assert (Hin : EvReturn "a.sky" ∅ (Some cycleError) ∈
              [EvResolve "a.sky" ""; EvReadFile "a.sky"; EvExecFile "a.sky";
               EvResolve "a.sky" "a.sky"; EvReturn "a.sky" ∅ (Some cycleError)]
              ++ [EvReturn "a.sky" ∅
                    (Some (Wrapped "cannot load a.sky: cycle in load graph" cycleError))]).
    { apply elem_of_app. left. do 4 apply list_elem_of_further. apply list_elem_of_here. }
    apply H in Hin. vm_compute in Hin. discriminate.
Qed.

(** C2.  An import that resolves to the path of a module that is still
    executing (its cache entry is the pending marker) returns the cycle
    error at once: for any depth bound, without calling [ReadFile] or
    [ExecFile] and without touching the cache.  The marker is recorded
    before the module executes and replaced by a finished entry after: a
    request for a module that is absent and readable runs the module body
    from a session in which the module is pending, and when the body has
    returned it records what the body returned; at every [load] statement
    of the body the module is still pending, as is every module that was
    pending before, so an import of the module made by its own body
    returns the cycle error.  Hence loading never recurses without bound:
    when the reader can read only the files of a finite set, a depth of
    one more than the size of that set is enough for [loadImpl] to
    return.  When the interpreter propagates failed loads, as Starlark
    does, loading a module whose first imports lead back to a module on
    the way, such as [A] importing [B] importing [C] importing [A],
    returns an error whose root cause is the cycle error, for every depth
    bound above the length of the way; and so does every session in which
    some import met a pending entry. *)
Theorem pending_import_is_cycle_error
    (reader : FileReader) (ExecFile : string -> string -> script) :
  (forall fuel thread name s P,
     Resolve reader name (fromPathOf thread) = (P, None) ->
     cache s !! P = Some None ->
     load reader ExecFile (S fuel) thread name s
     = Some ((∅, Some cycleError),
             mkSession (cache s)
               (trace s ++ [EvResolve name (fromPathOf thread);
                            EvReturn P ∅ (Some cycleError)]))) /\
  (forall fuel thread name s P src,
     Resolve reader name (fromPathOf thread) = (P, None) ->
     cache s !! P = None ->
     ReadFile reader P = (src, None) ->
     exists s1,
       cache s1 = <[P := None]> (cache s) /\
       load reader ExecFile (S fuel) thread name s
       = match execScript (load reader ExecFile fuel (P :: thread)) (ExecFile P src) s1 with
         | None => None
         | Some ((g, e), s2) =>
           Some ((g, e), mkSession (<[P := Some (mkEntry g e)]> (cache s2))
                           (trace s2 ++ [EvReturn P g e]))
         end /\
       forall m sx,
         (m, sx) ∈ callbackCalls (load reader ExecFile fuel (P :: thread))
                     (ExecFile P src) s1 ->
         cache sx !! P = Some None /\
         (forall q, cache s !! q = Some None -> cache sx !! q = Some None) /\
         (Resolve reader m P = (P, None) -> 0 < fuel ->
          load reader ExecFile fuel (P :: thread) m sx
          = Some ((∅, Some cycleError),
                  mkSession (cache sx)
                    (trace sx ++ [EvResolve m P; EvReturn P ∅ (Some cycleError)])))) /\
  (forall readable : gset string,
     (forall p src, ReadFile reader p = (src, None) -> p ∈ readable) ->
     forall filename, exists r final,
       loadImpl reader ExecFile (S (size readable)) filename = Some (r, final)) /\
  ((forall p src, propagates (ExecFile p src)) ->
   (forall fuel filename P n,
      Resolve reader filename "" = (P, None) ->
      leadsToCycle reader ExecFile [] P n ->
      n < fuel ->
      exists g e final,
        loadImpl reader ExecFile fuel filename = Some ((g, Some e), final) /\
        rootCause e = cycleError) /\
   (forall fuel filename r final p,
      loadImpl reader ExecFile fuel filename = Some (r, final) ->
      EvReturn p ∅ (Some cycleError) ∈ trace final ->
      exists e, r.2 = Some e /\ rootCause e = cycleError)).
Proof.
  assert (Hnow : forall fuel thread name s P,
     Resolve reader name (fromPathOf thread) = (P, None) ->
     cache s !! P = Some None ->
     load reader ExecFile (S fuel) thread name s
     = Some ((∅, Some cycleError),
             mkSession (cache s)
               (trace s ++ [EvResolve name (fromPathOf thread);
                            EvReturn P ∅ (Some cycleError)]))).
  { intros fuel thread name s P Hres Hc. simpl. rewrite Hres. simpl. rewrite Hc.
    unfold emit. simpl. by rewrite <- app_assoc. }
  split; [exact Hnow|]. split; [|split].
  - intros fuel thread name s P src Hres Hc Hrd.
    eexists. split; [|split].
    2:{ exact (load_executes_pending reader ExecFile fuel thread name s P src
                 Hres Hc Hrd). }
    { reflexivity. }
    intros m sx Hin.
    assert (Hkeep : forall q,
              cache (mkSession (<[P := None]> (cache s))
                       (trace s ++ [EvResolve name (fromPathOf thread);
                                    EvReadFile P; EvExecFile P])) !! q = Some None ->
              cache sx !! q = Some None).
    { intros q Hq.
      exact (callbackCalls_pending _ q
               (load_keeps_pending reader ExecFile fuel (P :: thread) q)
               _ _ _ _ Hq Hin). }
    assert (HP : cache sx !! P = Some None).
    { apply Hkeep. simpl. apply lookup_insert_eq. }
    split; [exact HP|]. split.
    + intros q Hq. apply Hkeep. simpl.
      destruct (decide (P = q)) as [->|Hne]; [apply lookup_insert_eq|].
      by rewrite lookup_insert_ne.
    + intros Hm Hfuel. destruct fuel as [|fuel']; [lia|].
      exact (Hnow fuel' (P :: thread) m sx P Hm HP).
  - intros readable Hr filename. unfold loadImpl.
    apply (load_terminates reader ExecFile readable Hr). simpl.
    rewrite dom_empty_L, difference_empty_L. lia.
  - intros Hprop. split.
    + intros fuel filename P n Hres Hcycle Hfuel. unfold loadImpl.
      apply (leadsToCycle_fails reader ExecFile Hprop [] P n Hcycle fuel [] filename
               (mkSession ∅ []) Hfuel Hres).
      * intros p Hp. inversion Hp.
      * intros p _. apply lookup_empty.
    + intros fuel filename r final p Hl Hin. unfold loadImpl in Hl.
      destruct (load_blames reader ExecFile Hprop _ _ _ _ _ _ Hl) as (new & Ht & Hb).
      simpl in Ht. rewrite Ht in Hin. destruct (Hb _ _ _ Hin) as (e & He & Hroot).
      exists e. split; [done|]. exact Hroot.
Qed.

Lemma loadsThen_propagates (mods : list string) (g : StringDict) :
  propagates (loadsThen mods g).
Proof.
  induction mods as [|m rest IH]; simpl; [done|]. split.
  - intros g0 e. eexists _, _. split; reflexivity.
  - intros g0. exact IH.
Qed.

Lemma cycleFiles_lead_to_cycle :
  leadsToCycle (mapReader cycleFiles) (importEngine cycleImports) [] "a.sky" 3.
Proof.
  eapply (cycle_step _ _ [] "a.sky" _ "b.sky" _ "b.sky");
    [intros H; inversion H | reflexivity | reflexivity | reflexivity |].
  eapply (cycle_step _ _ ["a.sky"] "b.sky" _ "c.sky" _ "c.sky");
    [|reflexivity | reflexivity | reflexivity |].
  { intros H. apply list_elem_of_singleton in H. discriminate. }
  eapply (cycle_step _ _ ["b.sky"; "a.sky"] "c.sky" _ "a.sky" _ "a.sky");
    [|reflexivity | reflexivity | reflexivity |].
  { intros H. apply elem_of_cons in H as [H|H]; [discriminate|].
    apply list_elem_of_singleton in H. discriminate. }
  apply cycle_closed. do 2 apply list_elem_of_further. apply list_elem_of_here.
Qed.

Lemma pending_import_is_cycle_error_witness :
  load (mapReader cycleFiles) (importEngine cycleImports) 1 ["c.sky"] "a.sky"
    (mkSession {[ "a.sky" := None ]} [])
  = Some ((∅, Some cycleError),
          mkSession {[ "a.sky" := None ]}
            [EvResolve "a.sky" "c.sky"; EvReturn "a.sky" ∅ (Some cycleError)]) /\
  (exists g e final,
     loadImpl (mapReader cycleFiles) (importEngine cycleImports) 4 "a.sky"
       = Some ((g, Some e), final) /\
     rootCause e = cycleError) /\
  (exists r final,
     loadImpl (mapReader cycleFiles) (importEngine cycleImports) 4 "a.sky"
       = Some (r, final)).
Proof.
  destruct (pending_import_is_cycle_error
              (mapReader cycleFiles) (importEngine cycleImports))
    as (Hnow & _ & Hterm & Hcycle).
  split; [|split].
  - exact (Hnow 0 ["c.sky"] "a.sky" (mkSession {[ "a.sky" := None ]} []) "a.sky"
             eq_refl eq_refl).
  - destruct (Hcycle (fun p src => loadsThen_propagates _ _)) as [Hchain _].
    apply (Hchain 4 "a.sky" "a.sky" 3 eq_refl cycleFiles_lead_to_cycle). lia.
  - destruct (Hterm (dom cycleFiles)) with (filename := "a.sky") as (r & final & Hrun).
    { intros p src. simpl. destruct (cycleFiles !! p) eqn:Hp; [|discriminate].
      intros _. apply elem_of_dom. eauto. }
    assert (Hsize : S (size (dom cycleFiles)) = 4) by (vm_compute; reflexivity).
    rewrite Hsize in Hrun. eauto.
Defined.




(** * Properties of the harnesses *)

Import Harness.

Lemma collectMessages_ok (elems : list Value) :
  forall acc out, collectMessages elems acc = (out, None) ->
    exists new, out = acc ++ new /\ map AsProtoMessage elems = map Some new.
Proof.
  induction elems as [|v rest IH]; intros acc out H; simpl in H.
  - inversion H; subst. exists []. by rewrite app_nil_r.
  - destruct (AsProtoMessage v) as [msg|] eqn:Hv; [|discriminate].
    destruct (IH _ _ H) as (new & -> & Hmap).
    exists (msg :: new). split; [by rewrite <- app_assoc|].
    simpl. by rewrite Hv, Hmap.
Qed.

Lemma collectMessages_all (recs : list Message) :
  forall acc, collectMessages (map NewProtoMessage recs) acc = (acc ++ recs, None).
Proof.
  induction recs as [|m rest IH]; intros acc; simpl.
  - by rewrite app_nil_r.
  - rewrite IH. by rewrite <- app_assoc.
Qed.

Lemma collectMessages_bad (pre : list Value) (bad : Value) (post : list Value) :
  Forall (fun v => is_Some (AsProtoMessage v)) pre ->
  AsProtoMessage bad = None ->
  forall acc, collectMessages (pre ++ bad :: post) acc
    = ([], Some (Errorf ("`main' returned something that's not a protobuf (a "
                           ++ typeOf bad ++ ")"))).
Proof.
  intros Hpre Hbad. induction Hpre as [|v pre [msg Hv] _ IH]; intros acc; simpl.
  - by rewrite Hbad.
  - rewrite Hv. apply IH.
Qed.

Section HarnessFacts.

Variable Call : Value -> list Value -> Heap -> (Value + error) * Heap.
Variable quote : string -> string.

Lemma Main_unfold (c : Config) (opts : list ExecOption) (h : Heap) (mainFn : Value) :
  locals c !! "main" = Some mainFn ->
  isCallable mainFn = true ->
  Main Call quote c opts h =
    match Call mainFn [contextModule (varsRefAt h)] (heapAtCall opts h) with
    | (inr err, h') => (([], Some err), h')
    | (inl (ListValue mainList), h') => (collectMessages mainList [], h')
    | (inl NoneValue, h') => (([], None), h')
    | (inl v, h') =>
      (([], Some (Errorf ("`main' didn't return a list (got a " ++ typeOf v ++ ")"))), h')
    end.
Proof.
  intros Hm Hc. unfold Main, heapAtCall, varsRefAt.
  destruct (newDict h) as [ref h0] eqn:Hn. simpl. rewrite Hm, Hc. simpl.
  destruct (Call mainFn [contextModule ref] (applyAll opts (mkExecOptions ref) h0))
    as [[v|e] h']; [|done].
  by destruct v.
Qed.

Lemma callsOf_names (ctx : Value) (entries : list (string * Value)) :
  forall h,
    map fst (callsOf Call ctx entries h).1
    = map fst (filter (fun entry => isTest entry = true) entries).
Proof.
  induction entries as [|entry rest IH]; intros h; simpl; [done|].
  destruct (isTest entry) eqn:Htest.
  - rewrite filter_cons_True by done.
    destruct (Call entry.2 [ctx] h) as [r h1].
    specialize (IH h1). destruct (callsOf Call ctx rest h1) as [calls h2].
    simpl in *. by rewrite IH.
  - rewrite filter_cons_False by (rewrite Htest; done). apply IH.
Qed.

Lemma runEntry_fold (parsedOpts : execOptions) (entries : list (string * Value)) :
  forall b,
    ran (fold_left (runEntry Call parsedOpts) entries b)
      = ran b ++ (callsOf Call (contextModule (vars parsedOpts)) entries (heap b)).1 /\
    heap (fold_left (runEntry Call parsedOpts) entries b)
      = (callsOf Call (contextModule (vars parsedOpts)) entries (heap b)).2 /\
    msgs (fold_left (runEntry Call parsedOpts) entries b)
      = msgs b ++ failureMessages
                    (callsOf Call (contextModule (vars parsedOpts)) entries (heap b)).1 /\
    success (fold_left (runEntry Call parsedOpts) entries b)
      = success b &&
        forallb passed (callsOf Call (contextModule (vars parsedOpts)) entries (heap b)).1.
Proof.
  induction entries as [|entry rest IH]; intros b; simpl.
  - by rewrite !app_nil_r, andb_true_r.
  - destruct (IH (runEntry Call parsedOpts b entry)) as (Hran & Hheap & Hmsgs & Hsucc).
    rewrite Hran, Hheap, Hmsgs, Hsucc. clear IH Hran Hheap Hmsgs Hsucc.
    unfold runEntry. destruct (isTest entry) eqn:Htest; simpl; [|done].
    destruct (Call entry.2 [contextModule (vars parsedOpts)] (heap b)) as [[v|e] h1];
      simpl;
      destruct (callsOf Call (contextModule (vars parsedOpts)) rest h1) as [calls h2];
      simpl; rewrite <- ?app_assoc; simpl.
    + done.
    + by rewrite andb_false_r.
Qed.

End HarnessFacts.

(** ** The claims about [Main] *)

(** C4, as amended.  When [main] returns a list whose first element that
    is not a record is [bad], [Main] returns no messages and the error
    [`main' returned something that's not a protobuf (a <kind>)], where
    the kind is the type name of [bad].  The error is the same wherever
    [bad] stands in the list: it does not tell the index. *)
Theorem Main_names_kind_of_non_record
    (Call : Value -> list Value -> Heap -> (Value + error) * Heap)
    (quote : string -> string)
    (c : Config) (opts : list ExecOption) (h h' : Heap)
    (mainFn : Value) (pre : list Value) (bad : Value) (post : list Value) :
  locals c !! "main" = Some mainFn ->
  isCallable mainFn = true ->
  Call mainFn [contextModule (varsRefAt h)] (heapAtCall opts h)
    = (inl (ListValue (pre ++ bad :: post)), h') ->
  Forall (fun v => is_Some (AsProtoMessage v)) pre ->
  AsProtoMessage bad = None ->
  Main Call quote c opts h
  = (([], Some (Errorf ("`main' returned something that's not a protobuf (a "
                          ++ typeOf bad ++ ")"))), h').
Proof.
  intros Hm Hc Hcall Hpre Hbad.
  rewrite (Main_unfold Call quote c opts h mainFn Hm Hc), Hcall.
  by rewrite collectMessages_bad.
Qed.

Lemma Main_names_kind_of_non_record_witness :
  Main Examples.demoCall Examples.quoteASCII (Examples.configWith "main_mixed") [] Examples.emptyHeap
  = (([], Some (Errorf "`main' returned something that's not a protobuf (a string)")),
     Examples.tick 3 (heapAtCall [] Examples.emptyHeap)).
Proof.
  apply (Main_names_kind_of_non_record Examples.demoCall Examples.quoteASCII
           (Examples.configWith "main_mixed") [] Examples.emptyHeap _
           (FunctionValue "main_mixed")
           [MessageValue Examples.webService] (StringValue "not a record") []).
  - reflexivity.
  - reflexivity.
  - reflexivity.
  - repeat constructor. simpl. eauto.
  - reflexivity.
Defined.

(** C4 as stated fails: for [[validRecord, "not a record"]] the offending
    element has index 1, for [["not a record", validRecord]] it has index
    0, and [Main] returns the same error for both. *)
Lemma Main_error_omits_index :
  exists l1 l2 e h1 h2,
    Examples.demoCall (FunctionValue "main_mixed")
        [contextModule (varsRefAt Examples.emptyHeap)] (heapAtCall [] Examples.emptyHeap)
      = (inl (ListValue l1), h1) /\
    Examples.demoCall (FunctionValue "main_string_first")
        [contextModule (varsRefAt Examples.emptyHeap)] (heapAtCall [] Examples.emptyHeap)
      = (inl (ListValue l2), h2) /\
    firstNonRecord l1 = Some 1 /\
    firstNonRecord l2 = Some 0 /\
    Main Examples.demoCall Examples.quoteASCII (Examples.configWith "main_mixed") [] Examples.emptyHeap
      = (([], Some e), h1) /\
    Main Examples.demoCall Examples.quoteASCII (Examples.configWith "main_string_first") [] Examples.emptyHeap
      = (([], Some e), h2).
Proof.
  eexists _, _, _, _, _. split; [reflexivity|]. split; [reflexivity|].
  split; [reflexivity|]. split; [reflexivity|]. split; reflexivity.
Qed.

(** C6.  Whenever [Main] returns without error, [main] was found, was
    callable and returned either [None], and then the result is empty, or
    a list, and then every element of the list is a record and the result
    is the sequence of the bridged records of the elements, one for each
    element and in the order of the list. *)
Theorem Main_returns_bridged_records
    (Call : Value -> list Value -> Heap -> (Value + error) * Heap)
    (quote : string -> string)
    (c : Config) (opts : list ExecOption) (h h' : Heap) (out : list Message) :
  Main Call quote c opts h = ((out, None), h') ->
  exists mainFn v,
    locals c !! "main" = Some mainFn /\
    isCallable mainFn = true /\
    Call mainFn [contextModule (varsRefAt h)] (heapAtCall opts h) = (inl v, h') /\
    ((v = NoneValue /\ out = []) \/
     (exists mainList, v = ListValue mainList /\
        map AsProtoMessage mainList = map Some out /\
        mainList = map NewProtoMessage out)).
Proof.
  intros HM.
  destruct (locals c !! "main") as [mainFn|] eqn:Hm.
  2:{ unfold Main in HM. destruct (newDict h) as [ref h0]. rewrite Hm in HM.
      discriminate. }
  destruct (isCallable mainFn) eqn:Hc.
  2:{ unfold Main in HM. destruct (newDict h) as [ref h0]. rewrite Hm, Hc in HM.
      discriminate. }
  rewrite (Main_unfold Call quote c opts h mainFn Hm Hc) in HM.
  destruct (Call mainFn [contextModule (varsRefAt h)] (heapAtCall opts h))
    as [[v|e] h1] eqn:Hcall; [|discriminate].
  exists mainFn, v.
  destruct v; try discriminate.
  - inversion HM; subst. repeat split; auto.
  - destruct (collectMessages elems []) as [out' e'] eqn:Hcol.
    inversion HM; subst. repeat split; auto. right. exists elems. split; [done|].
    destruct (collectMessages_ok _ _ _ Hcol) as (new & -> & Hmap). simpl.
    split; [done|].
    clear -Hmap. revert new Hmap. induction elems as [|v rest IH]; intros [|m new] H;
      simpl in *; try discriminate; [done|].
    inversion H as [[Hv Hrest]]. rewrite <- (IH _ Hrest). f_equal.
    destruct v; simpl in Hv; try discriminate. by inversion Hv.
Qed.

Lemma Main_returns_bridged_records_witness :
  exists mainFn v,
    locals (Examples.configWith "main_records") !! "main" = Some mainFn /\
    isCallable mainFn = true /\
    Examples.demoCall mainFn [contextModule (varsRefAt Examples.emptyHeap)]
        (heapAtCall [] Examples.emptyHeap)
      = (inl v, Examples.tick 3 (heapAtCall [] Examples.emptyHeap)) /\
    ((v = NoneValue /\ [Examples.webService; Examples.dbService] = []) \/
     (exists mainList, v = ListValue mainList /\
        map AsProtoMessage mainList = map Some [Examples.webService; Examples.dbService] /\
        mainList = map NewProtoMessage [Examples.webService; Examples.dbService])).
Proof.
  apply (Main_returns_bridged_records Examples.demoCall Examples.quoteASCII
           (Examples.configWith "main_records") [] Examples.emptyHeap).
  reflexivity.
Defined.

Example Main_none_is_empty :
  (Main Examples.demoCall Examples.quoteASCII (Examples.configWith "main_none") [] Examples.emptyHeap).1
  = ([], None).
Proof. reflexivity. Qed.

(** ** The claims about the tests *)

(** C9.  On a test whose [Run] has not completed, [Result], [Duration]
    and [Error] panic; a test listed by [Tests] is in that state.  After
    [Run], whether the call failed or not, the three return what [Run]
    recorded: [FAIL] exactly when the call returned an error, the time the
    call took, and the error itself. *)
Theorem accessors_panic_before_Run
    (Call : Value -> list Value -> Heap -> (Value + error) * Heap)
    (range : StringDict -> list (string * Value)) :
  (forall t, complete t = false ->
     Result t = Panic "can't get the result of a test that has not run" /\
     Duration t = Panic "can't get the duration of a test that has not run" /\
     Error t = Panic "can't get the error of a test that has not run") /\
  (forall c t, t ∈ Tests range c -> complete t = false) /\
  (forall t h t' e h',
     Run Call t h = ((t', e), h') ->
     complete t' = true /\
     Result t' = Return (match e with Some _ => FAIL | None => PASS end) /\
     Duration t' = Return (clock h' - clock h)%Z /\
     Error t' = Return e).
Proof.
  split; [|split].
  - intros t Ht. unfold Result, Duration, Error. by rewrite Ht.
  - intros c t. unfold Tests.
    assert (Hgen : forall entries acc,
               (forall t0, t0 ∈ acc -> complete t0 = false) ->
               forall t0, t0 ∈ fold_left (fun tests entry =>
                   if negb (isTest entry) then tests
                   else tests ++ [mkTest entry.1 entry.2 PASS 0 false None])
                 entries acc -> complete t0 = false).
    { induction entries as [|entry rest IH]; intros acc Hacc t0; simpl; [apply Hacc|].
      apply IH. destruct (isTest entry); simpl; [|done].
      intros t1 Hin. apply elem_of_app in Hin as [Hin|Hin]; [by apply Hacc|].
      apply list_elem_of_singleton in Hin. by subst. }
    apply Hgen. intros t0 Hin. inversion Hin.
  - intros t h t' e h' HR. unfold Run in HR. simpl in HR.
    destruct (Call (callable t) _ _) as [r h1]. inversion HR; subst; clear HR.
    unfold Result, Duration, Error. simpl. done.
Qed.

Lemma accessors_panic_before_Run_witness :
  Result (mkTest "test_a" (FunctionValue "test_marks") PASS 0 false None)
  = Panic "can't get the result of a test that has not run" /\
  Result (Run Examples.demoCall
            (mkTest "test_a" (FunctionValue "test_marks") PASS 0 false None)
            Examples.emptyHeap).1.1
  = Return PASS /\
  Duration (Run Examples.demoCall
            (mkTest "test_a" (FunctionValue "test_marks") PASS 0 false None)
            Examples.emptyHeap).1.1
  = Return 2%Z.
Proof.
  destruct (accessors_panic_before_Run Examples.demoCall Examples.rangeForward)
    as (Hbefore & _ & Hafter).
  split.
  { exact (proj1 (Hbefore (mkTest "test_a" (FunctionValue "test_marks") PASS 0 false None)
                    eq_refl)). }
  destruct (Run Examples.demoCall
              (mkTest "test_a" (FunctionValue "test_marks") PASS 0 false None)
              Examples.emptyHeap) as [[t' e] h'] eqn:HR.
  destruct (Hafter _ _ _ _ _ HR) as (_ & Hres & Hdur & _).
  vm_compute in HR. inversion HR; subst. simpl in *. split; [exact Hres | exact Hdur].
Defined.

(** C8.  [RunTests] calls every test of [c.locals] that [range] visits,
    once each and in that order, whatever the earlier calls returned: the
    calls it makes and the heap it leaves are those of calling the tests
    one after the other, each in the heap that the call before it left,
    and [calls] holds for every test the error that the interpreter
    returned for it.  Its messages are one per call that returned an
    error.  When some call returned an error it returns those messages,
    which are not empty, and an error that counts them; when no call did,
    it returns no messages and no error.  As [range] visits every entry
    of the map once, the tests called are all the tests the configuration
    defines. *)
Theorem RunTests_runs_every_test
    (Call : Value -> list Value -> Heap -> (Value + error) * Heap)
    (range : StringDict -> list (string * Value))
    (c : Config) (opts : list ExecOption) (h h' : Heap)
    (out : list string) (e : option error) (calls : list (string * option error)) :
  RunTests Call range c opts h = ((out, e), calls, h') ->
  (calls, h') = callsOf Call (contextModule (varsRefAt h)) (range (locals c))
                  (heapAtCall opts h) /\
  map fst calls = map fst (filter (fun entry => isTest entry = true) (range (locals c))) /\
  (visitsAll range ->
   map fst calls ≡ₚ
     map fst (filter (fun entry => isTest entry = true) (map_to_list (locals c)))) /\
  (forallb passed calls = false ->
     out = failureMessages calls /\ out <> [] /\
     e = Some (Errorf (decimal (length out) ++ " tests failed to exit cleanly"))) /\
  (forallb passed calls = true -> out = [] /\ e = None).
Proof.
  intros HR. unfold RunTests in HR. unfold heapAtCall, varsRefAt.
  destruct (newDict h) as [ref h0]. simpl fst. simpl snd.
  destruct (runEntry_fold Call (mkExecOptions ref) (range (locals c))
              (mkBatch [] true [] (applyAll opts (mkExecOptions ref) h0)))
    as (Hran & Hheap & Hmsgs & Hsucc).
  pose proof (callsOf_names Call (contextModule ref) (range (locals c))
                (applyAll opts (mkExecOptions ref) h0)) as Hnames.
  set (b := fold_left _ _ _) in *. simpl in Hran, Hheap, Hmsgs, Hsucc.
  destruct (callsOf Call (contextModule ref) (range (locals c))
              (applyAll opts (mkExecOptions ref) h0)) as [R hR].
  simpl in *.
  assert (Hcalls : calls = R /\ h' = hR).
  { destruct (success b); simpl in HR; inversion HR; split; congruence. }
  destruct Hcalls as [-> ->]. split; [done|]. split; [done|]. split.
  - intros Hv. rewrite Hnames. apply fmap_Permutation.
    apply filter_Permutation. apply Hv.
  - rewrite Hsucc in HR. split; intros Hp; rewrite Hp in HR; simpl in HR;
      inversion HR; subst; clear HR.
    + rewrite Hmsgs. split; [done|]. split; [|done].
      revert Hp.
      match goal with |- _ -> failureMessages ?l <> [] => generalize l end.
      intros l. induction l as [|[n [er|]] rest IH]; simpl; try done.
    + done.
Qed.

Lemma RunTests_runs_every_test_witness :
  (RunTests Examples.demoCall Examples.rangeBroken Examples.brokenConfig []
     Examples.emptyHeap).1
  = ((["Test did not exit cleanly (test_broken): undefined function no_such_function"],
      Some (Errorf "1 tests failed to exit cleanly")),
     [("test_broken", Some (Errorf "undefined function no_such_function"));
      ("test_fine", None)]) /\
  (callsOf Examples.demoCall (contextModule (varsRefAt Examples.emptyHeap))
     Examples.brokenEntries (heapAtCall [] Examples.emptyHeap)).1
  = [("test_broken", Some (Errorf "undefined function no_such_function"));
     ("test_fine", None)].
Proof.
  destruct (RunTests Examples.demoCall Examples.rangeBroken Examples.brokenConfig []
              Examples.emptyHeap) as [[[out e] calls] h'] eqn:HR.
  destruct (RunTests_runs_every_test _ _ _ _ _ _ _ _ _ HR) as (Hcalls & _).
  change (Examples.rangeBroken (locals Examples.brokenConfig))
    with Examples.brokenEntries in Hcalls.
  rewrite <- Hcalls. vm_compute in HR. inversion HR. split; reflexivity.
Defined.

(** C5: [RunTests] builds one [vars] dictionary for the whole batch and
    hands it to every test.  When [range] visits [test_a] before
    [test_b], the key that [test_a] writes makes [test_b] fail; visited
    the other way round, or run one by one with [Run], which makes a new
    dictionary for every call, both tests pass. *)
Theorem RunTests_shares_vars_between_tests :
  (RunTests Examples.demoCall Examples.rangeForward Examples.testConfig []
     Examples.emptyHeap).1
  = ((["Test did not exit cleanly (test_b): fail: ctx.vars is not empty"],
      Some (Errorf "1 tests failed to exit cleanly")),
     [("test_a", None); ("test_b", Some (Errorf "fail: ctx.vars is not empty"))]) /\
  (RunTests Examples.demoCall Examples.rangeBackward Examples.testConfig []
     Examples.emptyHeap).1
  = (([], None), [("test_b", None); ("test_a", None)]) /\
  (exists ta tb ta' tb' h1 h2,
     Tests Examples.rangeForward Examples.testConfig = [ta; tb] /\
     Run Examples.demoCall ta Examples.emptyHeap = ((ta', None), h1) /\
     Run Examples.demoCall tb h1 = ((tb', None), h2)).
Proof.
  split; [vm_compute; reflexivity|]. split; [vm_compute; reflexivity|].
  eexists _, _, _, _, _, _. split; [reflexivity|]. split; vm_compute; reflexivity.
Qed.

(** [Run] passes a dictionary that did not exist before and is empty. *)
Lemma Run_makes_fresh_vars
    (Call : Value -> list Value -> Heap -> (Value + error) * Heap)
    (t : Test) (h : Heap) :
(varsRefAt h ∉ dom (dicts h)) /\
  dicts (snd (newDict h)) !! varsRefAt h = Some ∅ /\
  Run Call t h =
    (let (r, h') := Call (callable t) [contextModule (varsRefAt h)] (snd (newDict h)) in
     let e := match r with inl _ => None | inr e => Some e end in
     ((mkTest (name t) (callable t) (match e with Some _ => FAIL | None => PASS end)
         (clock h' - clock h)%Z true e, e), h')).
Proof.
  unfold varsRefAt, newDict. simpl.
  split; [apply is_fresh|]. split; [apply lookup_insert_eq|]. reflexivity.
Qed.

(** * Properties of the default [FileReader] *)

Import GoPath Local.

Lemma splitOn_not_nil (c : ascii) (s : string) : splitOn c s <> [].
Proof.
  induction s as [|ch rest IH]; simpl; [done|].
  destruct (Ascii.eqb ch c); [done|]. by destruct (splitOn c rest).
Qed.

Lemma splitOn_app_sep (c : ascii) (a b : string) :
  splitOn c (a +:+ String c b) = splitOn c a ++ splitOn c b.
Proof.
  induction a as [|ch rest IH]; simpl.
  - by rewrite Ascii.eqb_refl.
  - rewrite IH. destruct (Ascii.eqb ch c); [done|].
    pose proof (splitOn_not_nil c rest) as Hn. by destruct (splitOn c rest).
Qed.

Lemma splitOn_plain (c : ascii) (s : string) :
  ContainsRune s c = false -> splitOn c s = [s].
Proof.
  induction s as [|ch rest IH]; simpl; [done|].
  intros H. apply orb_false_elim in H as [H1 H2]. rewrite H1, (IH H2). done.
Qed.

Lemma splitOn_joinWith (c : ascii) (elems : list string) :
  elems <> [] ->
  Forall (fun e => ContainsRune e c = false) elems ->
  splitOn c (joinWith c elems) = elems.
Proof.
  intros Hne Hall. induction Hall as [|e rest He Hrest IH]; [done|].
  destruct rest as [|e' rest'].
  - simpl. by apply splitOn_plain.
  - change (joinWith c (e :: e' :: rest'))
      with (e +:+ String c (joinWith c (e' :: rest'))).
    rewrite splitOn_app_sep, (splitOn_plain c e He), IH; done.
Qed.

(** The pieces of a string contain only bytes of the string, and never
    the separator. *)
Lemma splitOn_keeps_absent (c d : ascii) (s : string) :
  ContainsRune s d = false ->
  Forall (fun seg => ContainsRune seg d = false) (splitOn c s).
Proof.
  induction s as [|ch rest IH]; simpl; intros H.
  - by constructor.
  - apply orb_false_elim in H as [H1 H2]. specialize (IH H2).
    destruct (Ascii.eqb ch c).
    + by constructor.
    + destruct (splitOn c rest) as [|seg segs]; [by repeat constructor; simpl; rewrite H1|].
      inversion IH; subst. constructor; [simpl; by rewrite H1|done].
Qed.

Lemma splitOn_no_sep (c : ascii) (s : string) :
  Forall (fun seg => ContainsRune seg c = false) (splitOn c s).
Proof.
  induction s as [|ch rest IH]; simpl.
  - by constructor.
  - destruct (Ascii.eqb ch c) eqn:Hc.
    + by constructor.
    + destruct (splitOn c rest) as [|seg segs]; [by repeat constructor; simpl; rewrite Hc|].
      inversion IH; subst. constructor; [simpl; by rewrite Hc|done].
Qed.

Lemma replaceRune_plain (old new : ascii) (s : string) :
  ContainsRune s old = false -> replaceRune old new s = s.
Proof.
  induction s as [|ch rest IH]; simpl; [done|].
  intros H. apply orb_false_elim in H as [H1 H2]. by rewrite H1, IH.
Qed.

Lemma replaceRune_app (old new : ascii) (a b : string) :
  replaceRune old new (a +:+ b) = replaceRune old new a +:+ replaceRune old new b.
Proof. induction a as [|ch rest IH]; simpl; [done|]. by rewrite IH. Qed.

Lemma replaceRune_joinWith (old new : ascii) (elems : list string) :
  Forall (fun e => ContainsRune e old = false) elems ->
  replaceRune old new (joinWith old elems) = joinWith new elems.
Proof.
  induction 1 as [|e rest He Hrest IH]; [done|].
  destruct rest as [|e' rest'].
  - simpl. by apply replaceRune_plain.
  - change (joinWith old (e :: e' :: rest'))
      with (e +:+ String old (joinWith old (e' :: rest'))).
    change (joinWith new (e :: e' :: rest'))
      with (e +:+ String new (joinWith new (e' :: rest'))).
    rewrite replaceRune_app, (replaceRune_plain old new e He).
    change (replaceRune old new (String old (joinWith old (e' :: rest'))))
      with (String (if Ascii.eqb old old then new else old)
              (replaceRune old new (joinWith old (e' :: rest')))).
    by rewrite Ascii.eqb_refl, IH.
Qed.

(** [Clean] pushes a plain name on the stack. *)
Lemma cleanStep_plain (rooted : bool) (stack : list string) (elem : string) :
  elem <> "" -> elem <> "." -> elem <> ".." ->
  cleanStep rooted stack elem = elem :: stack.
Proof.
  intros H1 H2 H3. unfold cleanStep.
  apply String.eqb_neq in H1, H2, H3. by rewrite H1, H2, H3.
Qed.

Lemma fold_cleanStep_plain (rooted : bool) (elems : list string) :
  Forall (fun e => e <> "" /\ e <> "." /\ e <> "..") elems ->
  forall stack, fold_left (cleanStep rooted) elems stack = rev elems ++ stack.
Proof.
  induction 1 as [|e rest (H1 & H2 & H3) _ IH]; intros stack; simpl; [done|].
  rewrite cleanStep_plain, IH by done. by rewrite <- app_assoc.
Qed.

(** The stack of a rooted path holds only elements of the path, none of
    them empty, [.] or [..]. *)
Lemma fold_cleanStep_rooted (P : string -> Prop) (elems : list string) :
  Forall P elems ->
  forall stack,
    Forall (fun e => P e /\ e <> "" /\ e <> "." /\ e <> "..") stack ->
    Forall (fun e => P e /\ e <> "" /\ e <> "." /\ e <> "..")
      (fold_left (cleanStep true) elems stack).
Proof.
  induction 1 as [|e rest He _ IH]; intros stack Hs; simpl; [done|].
  apply IH. unfold cleanStep.
  destruct (String.eqb e "") eqn:E1; simpl; [done|].
  destruct (String.eqb e ".") eqn:E2; simpl; [done|].
  destruct (String.eqb e "..") eqn:E3.
  - destruct Hs as [|top below Htop Hbelow]; [done|].
    destruct Htop as (_ & _ & _ & Hdd). apply String.eqb_neq in Hdd.
    by rewrite Hdd.
  - apply String.eqb_neq in E1, E2, E3. by constructor.
Qed.

Section ResolveFacts.

Variable Separator : ascii.

Lemma isRooted_app (root rest : string) :
  root <> "" -> isRooted Separator (root +:+ rest) = isRooted Separator root.
Proof. by destruct root. Qed.

(** The elements that [path.Clean] keeps of a module name are plain. *)
Lemma name_elements_plain (name : string) :
  Separator = "/"%char \/ ContainsRune name Separator = false ->
  Forall (plainName Separator) (elements "/" (String "/" name)).
Proof.
  intros Hguard. unfold elements. apply Forall_rev.
  assert (Hsegs : Forall (fun e => ContainsRune e "/" = false /\
                                   ContainsRune e Separator = false)
                    (splitOn "/" (String "/" name))).
  { pose proof (splitOn_no_sep "/" (String "/" name)) as Hslash.
    destruct (Ascii.eqb Separator "/") eqn:Hsep.
    - apply Ascii.eqb_eq in Hsep. rewrite Hsep.
      eapply Forall_impl; [exact Hslash|]. simpl. auto.
    - destruct Hguard as [->|Hname]; [by rewrite Ascii.eqb_refl in Hsep|].
      assert (Habs : ContainsRune (String "/" name) Separator = false).
      { change (ContainsRune (String "/" name) Separator)
          with (Ascii.eqb "/" Separator || ContainsRune name Separator).
        by rewrite Ascii.eqb_sym, Hsep, Hname. }
      pose proof (splitOn_keeps_absent "/" Separator _ Habs) as Hs.
      clear -Hslash Hs. induction Hslash; inversion Hs; subst; constructor; auto. }
  pose proof (fold_cleanStep_rooted _ _ Hsegs [] (List.Forall_nil _)) as Hst.
  change (isRooted "/" (String "/" name)) with true.
  eapply Forall_impl; [exact Hst|].
  intros e ((H1 & H2) & H3 & H4 & H5). repeat split; auto.
Qed.

Lemma FromSlash_Clean (name : string) :
  Separator = "/"%char \/ ContainsRune name Separator = false ->
  FromSlash Separator (Clean ("/" ++ name))
  = String Separator (joinWith Separator (elements "/" (String "/" name))).
Proof.
  intros Hguard. pose proof (name_elements_plain name Hguard) as Hplain.
  unfold Clean, cleanWith, FromSlash.
  change ("/" +:+ name) with (String "/" name).
  change (isRooted "/" (String "/" name)) with true. simpl assemble.
  destruct (Ascii.eqb Separator "/") eqn:Hsep.
  - apply Ascii.eqb_eq in Hsep. by rewrite Hsep.
  - change (replaceRune "/" Separator (String "/" ?s))
      with (String (if Ascii.eqb "/" "/" then Separator else "/"%char)
              (replaceRune "/" Separator s)).
    simpl. f_equal. apply replaceRune_joinWith.
    eapply Forall_impl; [exact Hplain|]. intros e (_ & _ & _ & H & _). exact H.
Qed.

Lemma elements_below (root : string) (names : list string) :
  root <> "" ->
  Forall (plainName Separator) names ->
  elements Separator
    (root +:+ String Separator (String Separator (joinWith Separator names)))
  = elements Separator root ++ names.
Proof.
  intros Hroot Hplain. unfold elements.
  rewrite (isRooted_app root _ Hroot), splitOn_app_sep, fold_left_app.
  set (R := fold_left (cleanStep (isRooted Separator root)) (splitOn Separator root) []).
  change (splitOn Separator (String Separator ?s))
    with (if Ascii.eqb Separator Separator then EmptyString :: splitOn Separator s
          else match splitOn Separator s with
               | seg :: segs => String Separator seg :: segs
               | [] => [String Separator EmptyString]
               end).
  rewrite Ascii.eqb_refl. simpl fold_left.
  change (cleanStep (isRooted Separator root) R "") with R.
  destruct names as [|n rest].
  - simpl. by rewrite app_nil_r.
  - rewrite splitOn_joinWith; [|done|].
    + rewrite fold_cleanStep_plain.
      * by rewrite rev_app_distr, rev_involutive.
      * eapply Forall_impl; [exact Hplain|]. intros e (H1 & H2 & H3 & _). auto.
    + eapply Forall_impl; [exact Hplain|]. intros e (_ & _ & _ & _ & H). exact H.
Qed.

(** What [Resolve] hands to [filepath.Join] for a name that it accepts:
    the root, and the elements that [path.Clean] keeps of the name,
    written as a path of the platform that starts with the separator. *)
Lemma Resolve_nested_accepts (quote : string -> string)
    (filepathJoin : list string -> string) (rootDir name fromPath : string) :
  fromPath <> "" ->
  Separator = "/"%char \/ ContainsRune name Separator = false ->
  Resolve Separator quote filepathJoin (mkLocal rootDir) name fromPath
  = (filepathJoin
       [rootDir;
        String Separator (joinWith Separator (elements "/" (String "/" name)))],
     None).
Proof.
  intros Hfrom Hguard. unfold Resolve.
  apply String.eqb_neq in Hfrom. rewrite Hfrom.
  assert (Hg : negb (Ascii.eqb Separator "/") && ContainsRune name Separator = false).
  { destruct Hguard as [Hs | Hn].
    - by rewrite Hs, Ascii.eqb_refl.
    - rewrite Hn. apply andb_false_r. }
  rewrite Hg. simpl root. by rewrite (FromSlash_Clean name Hguard).
Qed.

End ResolveFacts.

(** On Unix the path is the cleaned root followed by the elements kept of
    the name. *)
Lemma Resolve_nested_value (quote : string -> string)
    (rootDir name fromPath : string) :
  rootDir <> "" -> fromPath <> "" ->
  Resolve "/" quote unixJoin (mkLocal rootDir) name fromPath
  = (below "/" rootDir (elements "/" (String "/" name)), None).
Proof.
  intros Hroot Hfrom.
  rewrite (Resolve_nested_accepts "/" quote unixJoin rootDir name fromPath Hfrom
             (or_introl eq_refl)).
  f_equal. unfold unixJoin. pose proof Hroot as Hr.
  apply String.eqb_neq in Hr. rewrite Hr.
  unfold unixClean, Clean, cleanWith, below.
  change (joinWith "/" [rootDir; ?x]) with (rootDir +:+ String "/" x).
  rewrite (isRooted_app "/" rootDir _ Hroot).
  rewrite (elements_below "/" rootDir _ Hroot
             (name_elements_plain "/" name (or_introl eq_refl))).
  reflexivity.
Qed.

Lemma below_root (rootDir : string) : below "/" rootDir [] = unixClean rootDir.
Proof. unfold below, unixClean, Clean, cleanWith. by rewrite app_nil_r. Qed.

Lemma LocalFileReader_root (rootDir : string) (r : localFileReader) :
  LocalFileReader rootDir = Return r -> rootDir <> "" /\ r = mkLocal rootDir.
Proof.
  unfold LocalFileReader. destruct (String.eqb rootDir "") eqn:E; [done|].
  intros H. inversion H. split; [by apply String.eqb_neq|done].
Qed.

(** ** The claims about the default [FileReader] *)




(** C10.  With an empty [fromPath], the case of the root module,
    [Resolve] returns the name as it is and no error, on every platform
    and for every root: a name with [..] elements or with the platform's
    separator comes back unchanged. *)
Theorem Resolve_root_module_unchanged
    (Separator : ascii) (quote : string -> string)
    (filepathJoin : list string -> string)
    (r : localFileReader) (name : string) :
  Resolve Separator quote filepathJoin r name "" = (name, None).
Proof. reflexivity. Qed.

Example Resolve_root_module_escapes :
  Resolve "/" Examples.quoteASCII unixJoin (mkLocal "/cfg") "../../etc/passwd" ""
  = ("../../etc/passwd", None) /\
  (forall filepathJoin,
     Resolve backslash Examples.quoteASCII filepathJoin (mkLocal "\cfg") "..\secret" ""
     = ("..\secret", None)) /\
  Resolve "/" Examples.quoteASCII unixJoin (mkLocal "/cfg") "../../etc/passwd"
    "/cfg/main.sky"
  = ("/cfg/etc/passwd", None).
Proof. repeat split. Qed.

(** * Further properties *)

(** ** The loader: fetches, failures and requesters *)

Import Loader Examples.

Section LoadOrder.

Variable reader : FileReader.
Variable ExecFile : string -> string -> script.

Lemma orderly_nil (thread : Thread) : orderly reader thread [].
Proof. split; [done|]. intros name from H. inversion H. Qed.

Lemma resolved_app (a b : list event) : resolved (a ++ b) = resolved a ++ resolved b.
Proof. unfold resolved. apply omap_app. Qed.

Lemma orderly_app (thread : Thread) (a b : list event) :
  orderly reader thread a -> orderly reader thread b -> orderly reader thread (a ++ b).
Proof.
  intros [Ha1 Ha2] [Hb1 Hb2]. split.
  - by rewrite executed_app, fetched_app, List.filter_app, Ha1, Hb1.
  - intros name from. rewrite resolved_app, executed_app, !elem_of_app.
    intros [H|H]; [destruct (Ha2 _ _ H)|destruct (Hb2 _ _ H)]; auto.
Qed.

Lemma execScript_orderly (callback : string -> session -> outcome) (thread : Thread) :
  (forall m s r s', callback m s = Some (r, s') ->
     exists new, trace s' = trace s ++ new /\ orderly reader thread new) ->
  forall body s r s', execScript callback body s = Some (r, s') ->
    exists new, trace s' = trace s ++ new /\ orderly reader thread new.
Proof.
  intros Hcb body. induction body as [g e | m k IH]; intros s r s' Hex; simpl in Hex.
  - inversion Hex; subst. exists []. split; [by rewrite app_nil_r|apply orderly_nil].
  - destruct (callback m s) as [[r1 s1]|] eqn:Hc; [|done].
    destruct (Hcb _ _ _ _ Hc) as (n1 & Ht1 & Ho1).
    destruct (IH _ _ _ _ Hex) as (n2 & Ht2 & Ho2).
    exists (n1 ++ n2). split; [by rewrite Ht2, Ht1, app_assoc|by apply orderly_app].
Qed.

Lemma load_orderly (fuel : nat) :
  forall thread name s r s',
    load reader ExecFile fuel thread name s = Some (r, s') ->
    exists new, trace s' = trace s ++ new /\ orderly reader thread new.
Proof.
  induction fuel as [|fuel IH]; intros thread name s r s' Hl; [done|].
  simpl in Hl.
  assert (Hfirst : forall n f, (n, f) ∈ [(name, fromPathOf thread)] ->
            f = fromPathOf thread \/ f ∈ (@nil string)).
  { intros n f H. apply list_elem_of_singleton in H. inversion H. by left. }
  destruct (Resolve reader name (fromPathOf thread)) as [P [rerr|]] eqn:Hres.
  { inversion Hl; subst. eexists. split; [reflexivity|]. split; [done|exact Hfirst]. }
  destruct (cache s !! P) as [[en|]|] eqn:Hc.
  - inversion Hl; subst; clear Hl. simpl. eexists. rewrite <- app_assoc.
    split; [reflexivity|]. split; [done|exact Hfirst].
  - inversion Hl; subst; clear Hl. simpl. eexists. rewrite <- app_assoc.
    split; [reflexivity|]. split; [done|exact Hfirst].
  - destruct (ReadFile reader P) as [src [ferr|]] eqn:Hrd.
    + inversion Hl; subst; clear Hl. simpl. eexists. rewrite <- !app_assoc.
      split; [reflexivity|]. split; [|exact Hfirst].
      simpl. unfold fetchable. by rewrite Hrd.
    + match type of Hl with context [execScript ?cb ?b ?s0] =>
        destruct (execScript cb b s0) as [[[g e] s2]|] eqn:Hex; [|done]
      end.
      inversion Hl; subst r s'; clear Hl.
      destruct (execScript_orderly _ (P :: thread) (IH (P :: thread)) _ _ _ _ Hex)
        as (nb & Ht & [Hb1 Hb2]).
      simpl in *. rewrite Ht. rewrite <- !app_assoc. simpl.
      eexists. split; [reflexivity|]. split.
      * simpl. rewrite executed_app, fetched_app. simpl. rewrite !app_nil_r.
        unfold fetchable at 1. rewrite Hrd. simpl. by rewrite Hb1.
      * intros n f. simpl. rewrite resolved_app, executed_app. simpl.
        rewrite !app_nil_r. intros H. apply elem_of_cons in H as [H|H].
        -- inversion H. by left.
        -- right. destruct (Hb2 _ _ H) as [->|Hin].
           ++ apply list_elem_of_here.
           ++ by apply list_elem_of_further.
Qed.

End LoadOrder.

(** X1.  In a load session that returns, [ReadFile] is called at most
    once for a module path, failed fetches included; every fetched path
    ends with a finished cache entry; and the modules executed are the
    fetched paths whose fetch succeeded, in the order of the fetches. *)
Theorem load_session_fetches_once
    (reader : FileReader) (ExecFile : string -> string -> script)
    (fuel : nat) (filename : string)
    (r : StringDict * option error) (final : session) :
  loadImpl reader ExecFile fuel filename = Some (r, final) ->
  NoDup (fetched (trace final)) /\
  (forall p, p ∈ fetched (trace final) ->
     exists en, cache final !! p = Some (Some en)) /\
  executed (trace final) = List.filter (fetchable reader) (fetched (trace final)).
Proof.
  unfold loadImpl. intros Hl.
  destruct (load_happened _ _ _ _ _ _ _ _ Hl) as [new Hh].
  destruct (load_orderly _ _ _ _ _ _ _ _ Hl) as (new' & Ht' & Ho & _).
  assert (Ht : trace final = new) by (rewrite (hap_trace _ _ _ Hh); reflexivity).
  simpl in Ht'. subst new new'.
  split; [eapply hap_fetch_once; eauto|]. split; [|done].
  intros p Hp. eapply hap_fetched; eauto.
Qed.

Lemma load_session_fetches_once_witness :
  exists r final,
    loadImpl (mapReader diamondFiles) (importEngine diamondImports) 3 "a.sky"
      = Some (r, final) /\
    fetched (trace final) = ["a.sky"; "b.sky"; "d.sky"; "c.sky"] /\
    NoDup (fetched (trace final)).
Proof.
  destruct (loadImpl (mapReader diamondFiles) (importEngine diamondImports) 3 "a.sky")
    as [[r final]|] eqn:Hrun.
  - exists r, final. split; [reflexivity|]. split.
    + vm_compute in Hrun. inversion Hrun. reflexivity.
    + exact (proj1 (load_session_fetches_once _ _ _ _ _ _ Hrun)).
  - vm_compute in Hrun. discriminate.
Defined.

(** X2.  When [loadImpl] returns, no cache entry is left pending.  If the
    root name resolved to a path, the pair returned is the symbol table
    and error recorded for that path; if it did not, the pair is the
    resolver's error and the cache is empty. *)
Theorem loadImpl_result_recorded
    (reader : FileReader) (ExecFile : string -> string -> script)
    (fuel : nat) (filename : string)
    (r : StringDict * option error) (final : session) :
  loadImpl reader ExecFile fuel filename = Some (r, final) ->
  (forall p, cache final !! p <> Some None) /\
  (forall P, Resolve reader filename "" = (P, None) ->
     cache final !! P = Some (Some (mkEntry r.1 r.2))) /\
  (forall P e, Resolve reader filename "" = (P, Some e) ->
     r = (∅, Some e) /\ cache final = ∅).
Proof.
  unfold loadImpl. intros Hl. split; [|split].
  - intros p Hp.
    destruct (load_happened _ _ _ _ _ _ _ _ Hl) as [new Hh].
    destruct (hap_absent _ _ _ Hh p) as [Hn | [en Hn]]; simpl; [done| |]; congruence.
  - intros P Hres. destruct fuel as [|fuel]; [done|]. simpl in Hl.
    rewrite Hres in Hl. simpl in Hl. rewrite lookup_empty in Hl.
    destruct (ReadFile reader P) as [src [ferr|]].
    + inversion Hl; subst. simpl. apply lookup_insert_eq.
    + match type of Hl with context [execScript ?cb ?b ?s0] =>
        destruct (execScript cb b s0) as [[[g e] s2]|]; [|done]
      end.
      inversion Hl; subst. simpl. apply lookup_insert_eq.
  - intros P e Hres. destruct fuel as [|fuel]; [done|]. simpl in Hl.
    rewrite Hres in Hl. inversion Hl; subst. done.
Qed.

Lemma loadImpl_result_recorded_witness :
  exists r final,
    loadImpl (mapReader cycleFiles) (importEngine cycleImports) 4 "a.sky"
      = Some (r, final) /\
    cache final !! "a.sky" = Some (Some (mkEntry r.1 r.2)) /\
    cache final !! "b.sky" <> Some None.
Proof.
  destruct (loadImpl (mapReader cycleFiles) (importEngine cycleImports) 4 "a.sky")
    as [[r final]|] eqn:Hrun.
  - exists r, final. split; [reflexivity|].
    destruct (loadImpl_result_recorded _ _ _ _ _ _ Hrun) as (Hnp & Hroot & _).
    split; [apply Hroot; reflexivity | apply Hnp].
  - vm_compute in Hrun. discriminate.
Defined.

(** X3.  A [Resolve] error is returned as it is and nothing is recorded:
    the cache is unchanged and no file is read.  A [ReadFile] error is
    returned and recorded without executing anything, so that a later
    request for the same path returns the same error without another
    [ReadFile]. *)
Theorem load_failures_recorded
    (reader : FileReader) (ExecFile : string -> string -> script)
    (fuel : nat) (thread : Thread) (name : string) (s : session) (P : string) :
  (forall e, Resolve reader name (fromPathOf thread) = (P, Some e) ->
     load reader ExecFile (S fuel) thread name s
     = Some ((∅, Some e),
             mkSession (cache s) (trace s ++ [EvResolve name (fromPathOf thread)]))) /\
  (forall src e,
     Resolve reader name (fromPathOf thread) = (P, None) ->
     cache s !! P = None ->
     ReadFile reader P = (src, Some e) ->
     exists s1,
       load reader ExecFile (S fuel) thread name s = Some ((∅, Some e), s1) /\
       executed (trace s1) = executed (trace s) /\
       fetched (trace s1) = fetched (trace s) ++ [P] /\
       forall fuel2 thread2 name2,
         Resolve reader name2 (fromPathOf thread2) = (P, None) ->
         exists s2,
           load reader ExecFile (S fuel2) thread2 name2 s1 = Some ((∅, Some e), s2) /\
           fetched (trace s2) = fetched (trace s1) /\
           executed (trace s2) = executed (trace s1)).
Proof.
  split.
  - intros e Hres. simpl. by rewrite Hres.
  - intros src e Hres Hc Hrd.
    set (s1 := emit (EvReturn P ∅ (Some e))
                 (setCache P (Some (mkEntry ∅ (Some e)))
                    (emit (EvReadFile P)
                       (emit (EvResolve name (fromPathOf thread)) s)))).
    exists s1. split.
    + simpl. rewrite Hres. simpl. rewrite Hc, Hrd. reflexivity.
    + split; [|split].
      * subst s1. simpl. rewrite !executed_app. simpl. by rewrite !app_nil_r.
      * subst s1. simpl. rewrite !fetched_app. simpl. by rewrite !app_nil_r.
      * intros fuel2 thread2 name2 Hres2.
        assert (Hdone : cache s1 !! P = Some (Some (mkEntry ∅ (Some e)))).
        { subst s1. simpl. apply lookup_insert_eq. }
        pose proof (load_finished_entry reader ExecFile fuel2 thread2 name2 s1 P
                      _ Hres2 Hdone) as H2.
        eexists. split; [exact H2|]. simpl.
        rewrite !executed_app, !fetched_app. simpl. by rewrite !app_nil_r.
Qed.

Lemma load_failures_recorded_witness :
  exists s1,
    load (mapReader ∅) (importEngine ∅) 1 [] "gone.sky" (mkSession ∅ [])
      = Some ((∅, Some missingError), s1) /\
    fetched (trace s1) = ["gone.sky"] /\
    exists s2,
      load (mapReader ∅) (importEngine ∅) 1 ["main.sky"] "gone.sky" s1
        = Some ((∅, Some missingError), s2) /\
      fetched (trace s2) = fetched (trace s1).
Proof.
  destruct (proj2 (load_failures_recorded (mapReader ∅) (importEngine ∅) 0 []
                     "gone.sky" (mkSession ∅ []) "gone.sky")
              "" missingError)
    as (s1 & H1 & _ & Hf & Hagain); [reflexivity|reflexivity|reflexivity|].
  exists s1. split; [exact H1|]. split; [exact Hf|].
  destruct (Hagain 0 ["main.sky"] "gone.sky" eq_refl) as (s2 & H2 & Hf2 & _).
  exists s2. split; [exact H2 | exact Hf2].
Defined.

(** X4.  With an interpreter that propagates failed loads, a failed
    import anywhere in the session fails the whole load: if any request
    returned an error, [loadImpl] returns an error of the same root
    cause; so a load that succeeds has had no failed request. *)
Theorem failed_import_fails_load
    (reader : FileReader) (ExecFile : string -> string -> script)
    (fuel : nat) (filename : string)
    (r : StringDict * option error) (final : session) :
  (forall p src, propagates (ExecFile p src)) ->
  loadImpl reader ExecFile fuel filename = Some (r, final) ->
  (forall p g e, EvReturn p g (Some e) ∈ trace final ->
     exists e', r.2 = Some e' /\ rootCause e' = rootCause e) /\
  (r.2 = None -> forall p g e, EvReturn p g e ∈ trace final -> e = None).
Proof.
  intros Hprop Hl. unfold loadImpl in Hl.
  destruct (load_blames reader ExecFile Hprop _ _ _ _ _ _ Hl) as (new & Ht & Hb).
  simpl in Ht. rewrite Ht. split; [exact Hb|].
  intros Hok p g [e|] Hin; [|done].
  destruct (Hb _ _ _ Hin) as (e' & He' & _). congruence.
Qed.

Lemma failed_import_fails_load_witness :
  exists r final e,
    loadImpl (mapReader brokenFiles) (importEngine brokenImports) 3 "a.sky"
      = Some (r, final) /\
    r.2 = Some e /\ rootCause e = missingError.
Proof.
  destruct (loadImpl (mapReader brokenFiles) (importEngine brokenImports) 3 "a.sky")
    as [[r final]|] eqn:Hrun.
  - destruct (proj1 (failed_import_fails_load _ _ _ _ _ _
                       (fun p src => loadsThen_propagates _ _) Hrun)
                "gone.sky" ∅ missingError) as (e & He & Hroot).
    { vm_compute in Hrun. inversion Hrun.
      do 8 apply list_elem_of_further. apply list_elem_of_here. }
    exists r, final, e. auto.
  - vm_compute in Hrun. discriminate.
Defined.

(** X5.  The first call of [Resolve] in a session is for the root name
    with an empty [fromPath]; every later call passes as [fromPath] the
    path of a module that the session executed. *)
Theorem nested_imports_resolve_from_executed
    (reader : FileReader) (ExecFile : string -> string -> script)
    (fuel : nat) (filename : string)
    (r : StringDict * option error) (final : session) :
  loadImpl reader ExecFile fuel filename = Some (r, final) ->
  exists rest,
    resolved (trace final) = (filename, "") :: rest /\
    forall name from, (name, from) ∈ rest -> from ∈ executed (trace final).
Proof.
  unfold loadImpl. intros Hl. destruct fuel as [|fuel]; [done|]. simpl in Hl.
  destruct (Resolve reader filename "") as [P [rerr|]] eqn:Hres.
  { inversion Hl; subst. exists []. split; [done|]. intros n f H. inversion H. }
  simpl in Hl. rewrite lookup_empty in Hl.
  destruct (ReadFile reader P) as [src [ferr|]] eqn:Hrd.
  { inversion Hl; subst. exists []. split; [done|]. intros n f H. inversion H. }
  match type of Hl with context [execScript ?cb ?b ?s0] =>
    destruct (execScript cb b s0) as [[[g e] s2]|] eqn:Hex; [|done]
  end.
  inversion Hl; subst r final; clear Hl.
  destruct (execScript_orderly reader _ [P] (load_orderly reader ExecFile fuel [P])
              _ _ _ _ Hex) as (nb & Ht & [_ Hb]).
  simpl in *. rewrite Ht. exists (resolved nb).
  change ((EvResolve filename "" :: EvReadFile P :: EvExecFile P :: nb)
            ++ [EvReturn P g e])
    with ([EvResolve filename ""; EvReadFile P; EvExecFile P]
            ++ nb ++ [EvReturn P g e]).
  rewrite !resolved_app, !executed_app. simpl. rewrite !app_nil_r. split; [done|].
  intros n f Hin. destruct (Hb _ _ Hin) as [->|Hx].
  - apply list_elem_of_here.
  - by apply list_elem_of_further.
Qed.

Lemma nested_imports_resolve_from_executed_witness :
  exists r final rest,
    loadImpl (mapReader diamondFiles) (importEngine diamondImports) 3 "a.sky"
      = Some (r, final) /\
    resolved (trace final) = ("a.sky", "") :: rest /\
    forall name from, (name, from) ∈ rest -> from ∈ executed (trace final).
Proof.
  destruct (loadImpl (mapReader diamondFiles) (importEngine diamondImports) 3 "a.sky")
    as [[r final]|] eqn:Hrun.
  - destruct (nested_imports_resolve_from_executed _ _ _ _ _ _ Hrun) as (rest & Hr & Hx).
    exists r, final, rest. auto.
  - vm_compute in Hrun. discriminate.
Defined.

(** ** [Main], [Tests] and [Run] *)

Import Harness.

Lemma applyAll_frame (opts : list ExecOption) (ref : nat) :
  forall h d,
    dicts h !! ref = Some d ->
    dicts (applyAll opts (mkExecOptions ref) h) !! ref
      = Some (fold_left (fun d opt => match opt with WithVars vs => vs ∪ d end) opts d) /\
    (forall other, other <> ref ->
       dicts (applyAll opts (mkExecOptions ref) h) !! other = dicts h !! other) /\
    clock (applyAll opts (mkExecOptions ref) h) = clock h.
Proof.
  induction opts as [|[vs] rest IH]; intros h d Hd.
  - done.
  - change (applyAll (WithVars vs :: rest) (mkExecOptions ref) h)
      with (applyAll rest (mkExecOptions ref)
              (applyExec (WithVars vs) (mkExecOptions ref) h)).
    change (fold_left (fun d opt => match opt with WithVars vs => vs ∪ d end)
              (WithVars vs :: rest) d)
      with (fold_left (fun d opt => match opt with WithVars vs => vs ∪ d end)
              rest (vs ∪ d)).
    destruct (IH (applyExec (WithVars vs) (mkExecOptions ref) h) (vs ∪ d))
      as (H1 & H2 & H3).
    { simpl. rewrite lookup_alter_eq, Hd. done. }
    split; [exact H1|]. split; [|exact H3].
    intros other Hne. rewrite (H2 other Hne). simpl. by rewrite lookup_alter_ne.
Qed.

(** X6.  [Main] calls [main] with a context whose [vars] is a dictionary
    that did not exist before and holds exactly the variables given by
    the [WithVars] options, later options over earlier ones; no other
    dictionary and not the clock is changed before the call. *)
Theorem Main_passes_merged_vars
    (Call : Value -> list Value -> Heap -> (Value + error) * Heap)
    (quote : string -> string)
    (c : Config) (opts : list ExecOption) (h : Heap) (mainFn : Value) :
  locals c !! "main" = Some mainFn ->
  isCallable mainFn = true ->
  (varsRefAt h ∉ dom (dicts h)) /\
  dicts (heapAtCall opts h) !! varsRefAt h = Some (mergedVars opts) /\
  (forall ref, ref ∈ dom (dicts h) ->
     dicts (heapAtCall opts h) !! ref = dicts h !! ref) /\
  clock (heapAtCall opts h) = clock h /\
  (Main Call quote c opts h).2
    = (Call mainFn [contextModule (varsRefAt h)] (heapAtCall opts h)).2.
Proof.
  intros Hm Hc.
  assert (Hfresh : varsRefAt h ∉ dom (dicts h)).
  { unfold varsRefAt, newDict. simpl. apply is_fresh. }
  destruct (applyAll_frame opts (varsRefAt h) (newDict h).2 ∅) as (H1 & H2 & H3).
  { unfold varsRefAt, newDict. simpl. apply lookup_insert_eq. }
  split; [exact Hfresh|]. split; [exact H1|]. split; [|split].
  - intros ref Href. unfold heapAtCall. rewrite H2.
    + unfold varsRefAt, newDict. simpl. rewrite lookup_insert_ne; [done|].
      intros Heq. apply Hfresh. unfold varsRefAt, newDict. simpl. by rewrite Heq.
    + intros ->. by apply Hfresh.
  - exact H3.
  - rewrite (Main_unfold Call quote c opts h mainFn Hm Hc).
    destruct (Call mainFn [contextModule (varsRefAt h)] (heapAtCall opts h))
      as [[v|e] h']; [|done].
    simpl. by destruct v.
Qed.

Lemma mergedVars_last (opts : list ExecOption) (vs : StringDict) (k : string) :
  mergedVars (opts ++ [WithVars vs]) !! k
  = match vs !! k with
    | Some v => Some v
    | None => mergedVars opts !! k
    end.
Proof.
  unfold mergedVars. rewrite fold_left_app. simpl.
  rewrite lookup_union. destruct (vs !! k) as [v|]; simpl.
  - by destruct (fold_left _ opts ∅ !! k).
  - by destruct (fold_left _ opts ∅ !! k).
Qed.

Lemma Main_passes_merged_vars_witness :
  dicts (heapAtCall [WithVars {[ "env" := StringValue "dev"; "replicas" := IntValue 1 ]};
                     WithVars {[ "replicas" := IntValue 3 ]}] Examples.emptyHeap)
    !! varsRefAt Examples.emptyHeap
  = Some (mergedVars [WithVars {[ "env" := StringValue "dev"; "replicas" := IntValue 1 ]};
                      WithVars {[ "replicas" := IntValue 3 ]}]) /\
  mergedVars [WithVars {[ "env" := StringValue "dev"; "replicas" := IntValue 1 ]};
              WithVars {[ "replicas" := IntValue 3 ]}] !! "replicas"
  = Some (IntValue 3).
Proof.
  split.
  - refine (proj1 (proj2 (Main_passes_merged_vars Examples.demoCall Examples.quoteASCII
             (Examples.configWith "main_none") _ Examples.emptyHeap
             (FunctionValue "main_none") _ _))); reflexivity.
  - vm_compute. reflexivity.
Defined.

(** X7.  When [main] returns [None], [Main] returns no messages and no
    error; when [main] returns a list made of records only, [Main]
    returns those records, in the order of the list, and no error. *)
Theorem Main_accepts_records
    (Call : Value -> list Value -> Heap -> (Value + error) * Heap)
    (quote : string -> string)
    (c : Config) (opts : list ExecOption) (h h' : Heap)
    (mainFn : Value) (recs : list Message) :
  locals c !! "main" = Some mainFn ->
  isCallable mainFn = true ->
  (Call mainFn [contextModule (varsRefAt h)] (heapAtCall opts h) = (inl NoneValue, h') ->
   Main Call quote c opts h = (([], None), h')) /\
  (Call mainFn [contextModule (varsRefAt h)] (heapAtCall opts h)
     = (inl (ListValue (map NewProtoMessage recs)), h') ->
   Main Call quote c opts h = ((recs, None), h')).
Proof.
  intros Hm Hc. split; intros Hcall;
    rewrite (Main_unfold Call quote c opts h mainFn Hm Hc), Hcall; [done|].
  by rewrite collectMessages_all.
Qed.

Lemma Main_accepts_records_witness :
  Main Examples.demoCall Examples.quoteASCII (Examples.configWith "main_records") [] Examples.emptyHeap
  = (([Examples.webService; Examples.dbService], None),
     Examples.tick 3 (heapAtCall [] Examples.emptyHeap)).
Proof.
  refine (proj2 (Main_accepts_records Examples.demoCall Examples.quoteASCII
            (Examples.configWith "main_records") [] Examples.emptyHeap _
            (FunctionValue "main_records")
            [Examples.webService; Examples.dbService] _ _) _); reflexivity.
Defined.

Lemma collectMessages_error (elems : list Value) :
  forall acc out e, collectMessages elems acc = (out, Some e) ->
    out = [] /\ exists bad,
      bad ∈ elems /\ AsProtoMessage bad = None /\
      e = Errorf ("`main' returned something that's not a protobuf (a "
                    +:+ typeOf bad +:+ ")").
Proof.
  induction elems as [|v rest IH]; intros acc out e H; simpl in H; [discriminate|].
  destruct (AsProtoMessage v) as [msg|] eqn:Hv.
  - destruct (IH _ _ _ H) as (-> & bad & Hin & Hbad & ->).
    split; [done|]. exists bad. split; [by apply list_elem_of_further|done].
  - inversion H; subst. split; [done|]. exists v. split; [apply list_elem_of_here|done].
Qed.

(** X8.  Whenever [Main] returns an error it returns no messages, and the
    error is one of five: [main] is missing from the locals (the error
    names the file, and the interpreter is not called); [main] is not
    callable (the error names its type, and the interpreter is not
    called); the call failed (the interpreter's error, unchanged); the
    call returned something that is neither [None] nor a list (the error
    names its type); or the returned list has an element that is not a
    record (the error names the type of that element). *)
Theorem Main_failure_cases
    (Call : Value -> list Value -> Heap -> (Value + error) * Heap)
    (quote : string -> string)
    (c : Config) (opts : list ExecOption) (h h' : Heap)
    (out : list Message) (e : error) :
  Main Call quote c opts h = ((out, Some e), h') ->
  out = [] /\
  ((locals c !! "main" = None /\
    e = Errorf ("no `main' function found in " +:+ quote (filename c)) /\
    h' = heapAtCall opts h) \/
   (exists mainVal,
      locals c !! "main" = Some mainVal /\ isCallable mainVal = false /\
      e = Errorf ("`main' must be a function (got a " +:+ typeOf mainVal +:+ ")") /\
      h' = heapAtCall opts h) \/
   (exists mainFn,
      locals c !! "main" = Some mainFn /\ isCallable mainFn = true /\
      Call mainFn [contextModule (varsRefAt h)] (heapAtCall opts h) = (inr e, h')) \/
   (exists mainFn v,
      locals c !! "main" = Some mainFn /\ isCallable mainFn = true /\
      Call mainFn [contextModule (varsRefAt h)] (heapAtCall opts h) = (inl v, h') /\
      v <> NoneValue /\ (forall l, v <> ListValue l) /\
      e = Errorf ("`main' didn't return a list (got a " +:+ typeOf v +:+ ")")) \/
   (exists mainFn l bad,
      locals c !! "main" = Some mainFn /\ isCallable mainFn = true /\
      Call mainFn [contextModule (varsRefAt h)] (heapAtCall opts h)
        = (inl (ListValue l), h') /\
      bad ∈ l /\ AsProtoMessage bad = None /\
      e = Errorf ("`main' returned something that's not a protobuf (a "
                    +:+ typeOf bad +:+ ")"))).
Proof.
  intros HM.
  destruct (locals c !! "main") as [mainFn|] eqn:Hm.
  2:{ unfold Main in HM. unfold heapAtCall, varsRefAt.
      destruct (newDict h) as [ref h0]. rewrite Hm in HM. inversion HM; subst.
      split; [done|]. left. done. }
  destruct (isCallable mainFn) eqn:Hc.
  2:{ unfold Main in HM. unfold heapAtCall, varsRefAt.
      destruct (newDict h) as [ref h0]. rewrite Hm, Hc in HM. inversion HM; subst.
      split; [done|]. right. left. exists mainFn. done. }
  rewrite (Main_unfold Call quote c opts h mainFn Hm Hc) in HM.
  destruct (Call mainFn [contextModule (varsRefAt h)] (heapAtCall opts h))
    as [[v|e0] h1] eqn:Hcall.
  2:{ inversion HM; subst. split; [done|]. right. right. left. exists mainFn. done. }
  destruct v; try discriminate HM;
    try (inversion HM; subst; split; [done|];
         right; right; right; left; eexists _, _;
         repeat split; try done; fail).
  destruct (collectMessages_error _ _ _ _ (f_equal fst HM)) as (-> & bad & Hin & Hbad & ->).
  inversion HM; subst. split; [done|].
  right. right. right. right. exists mainFn, elems, bad. done.
Qed.

Lemma Main_failure_cases_witness :
  (Main Examples.demoCall Examples.quoteASCII (mkConfig "demo.sky" ∅ ∅) [] Examples.emptyHeap).1.1 = [].
Proof.
  destruct (Main Examples.demoCall Examples.quoteASCII (mkConfig "demo.sky" ∅ ∅) [] Examples.emptyHeap)
    as [[out [e|]] h'] eqn:HM.
  - exact (proj1 (Main_failure_cases _ _ _ _ _ _ _ _ HM)).
  - vm_compute in HM. discriminate.
Defined.

Lemma Tests_fold (entries : list (string * Value)) :
  forall acc,
    fold_left (fun tests entry =>
        if negb (isTest entry) then tests
        else tests ++ [mkTest entry.1 entry.2 PASS 0 false None])
      entries acc
    = acc ++ map newTest (filter (fun entry => isTest entry = true) entries).
Proof.
  induction entries as [|entry rest IH]; intros acc; simpl.
  - by rewrite app_nil_r.
  - rewrite IH. destruct (isTest entry) eqn:Ht; simpl.
    + rewrite filter_cons_True by done. simpl. by rewrite <- app_assoc.
    + rewrite filter_cons_False by (rewrite Ht; done). done.
Qed.

(** X9.  [Tests] makes one handle, not yet run, for every entry that
    [range] visits whose name starts with [test_] and whose value has
    type [function], in the order of the visit.  As [range] visits every
    entry of the locals once, no two handles have the same name, and a
    name has a handle exactly when the locals bind it to such a value. *)
Theorem Tests_lists_test_functions
    (range : StringDict -> list (string * Value)) (c : Config) :
  Tests range c
  = map newTest (filter (fun entry => isTest entry = true) (range (locals c))) /\
  (visitsAll range ->
   NoDup (map name (Tests range c)) /\
   forall n v,
     newTest (n, v) ∈ Tests range c <->
     locals c !! n = Some v /\ String.prefix "test_" n = true /\
     typeOf v = "function").
Proof.
  assert (Heq : Tests range c
    = map newTest (filter (fun entry => isTest entry = true) (range (locals c)))).
  { unfold Tests. by rewrite Tests_fold. }
  split; [exact Heq|]. intros Hv. rewrite Heq. split.
  - rewrite <- list_fmap_compose.
    assert (Hnd : NoDup (map fst (range (locals c)))).
    { change (map fst (range (locals c))) with (fst <$> range (locals c)).
      rewrite (Hv (locals c)). apply NoDup_fst_map_to_list. }
    revert Hnd. generalize (range (locals c)). intros l.
    induction l as [|entry rest IH]; intros Hnd; [constructor|].
    inversion Hnd as [|x xs Hnotin Hrest]; subst.
    destruct (isTest entry) eqn:Ht.
    + rewrite filter_cons_True by done. simpl. constructor; [|by apply IH].
      intros Hin. apply Hnotin. apply list_elem_of_fmap in Hin as (y & Hy & Hyin).
      apply list_elem_of_filter in Hyin as [_ Hyin].
      apply list_elem_of_fmap. exists y. split; [exact Hy|exact Hyin].
    + rewrite filter_cons_False by (rewrite Ht; done). by apply IH.
  - intros n v. split.
    + intros Hin. apply list_elem_of_fmap in Hin as ([n' v'] & Hy & Hyin).
      inversion Hy; subst n' v'.
      apply list_elem_of_filter in Hyin as [Ht Hyin].
      rewrite (Hv (locals c)) in Hyin. apply elem_of_map_to_list in Hyin.
      unfold isTest in Ht. simpl in Ht. apply andb_true_iff in Ht as [H1 H2].
      apply String.eqb_eq in H2. done.
    + intros (Hl & Hp & Hty). apply list_elem_of_fmap. exists (n, v). split; [done|].
      apply list_elem_of_filter. split.
      * unfold isTest. simpl. rewrite Hp, Hty. done.
      * rewrite (Hv (locals c)). by apply elem_of_map_to_list.
Qed.

Lemma Tests_lists_test_functions_witness :
  NoDup (map name (Tests map_to_list Examples.testConfig)).
Proof.
  refine (proj1 (proj2 (Tests_lists_test_functions map_to_list Examples.testConfig) _)).
  intros m. reflexivity.
Defined.

(** ** The default reader: which names share a path *)

Import GoPath Local.

Lemma fold_cleanStep_kept (sep : ascii) (rooted : bool) (elems : list string) :
  Forall (fun e => ContainsRune e sep = false) elems ->
  forall stack,
    Forall (keptElement sep) stack ->
    Forall (keptElement sep) (fold_left (cleanStep rooted) elems stack).
Proof.
  induction 1 as [|e rest He _ IH]; intros stack Hs; simpl; [done|].
  apply IH. unfold cleanStep.
  destruct (String.eqb e "") eqn:E1; simpl; [done|].
  destruct (String.eqb e ".") eqn:E2; simpl; [done|].
  apply String.eqb_neq in E1, E2.
  assert (Hke : keptElement sep e) by (by repeat split).
  destruct (String.eqb e "..") eqn:E3.
  - destruct Hs as [|top below Htop Hbelow].
    + destruct rooted; [constructor|]. by constructor.
    + destruct (String.eqb top ".."); [|done]. constructor; [done|]. by constructor.
  - by constructor.
Qed.

Lemma elements_kept (sep : ascii) (path : string) :
  Forall (keptElement sep) (elements sep path).
Proof.
  unfold elements. apply Forall_rev.
  apply fold_cleanStep_kept; [apply splitOn_no_sep|constructor].
Qed.

Lemma plainName_kept (sep : ascii) (elem : string) :
  plainName sep elem -> keptElement sep elem.
Proof. intros (H1 & H2 & _ & _ & H5). by repeat split. Qed.

Lemma joinWith_empty (sep : ascii) (elems : list string) :
  Forall (keptElement sep) elems -> joinWith sep elems = "" -> elems = [].
Proof.
  intros Hk Hj. destruct Hk as [|e rest (He & _) _]; [done|].
  destruct e as [|ch e']; [done|]. destruct rest; discriminate.
Qed.

Lemma joinWith_inj (sep : ascii) (l1 l2 : list string) :
  Forall (keptElement sep) l1 -> Forall (keptElement sep) l2 ->
  joinWith sep l1 = joinWith sep l2 -> l1 = l2.
Proof.
  intros H1 H2 Hj.
  assert (Hs : forall l, Forall (keptElement sep) l ->
             Forall (fun e => ContainsRune e sep = false) l).
  { intros l Hl. eapply Forall_impl; [exact Hl|]. by intros e (_ & _ & H). }
  destruct l1 as [|a l1].
  - symmetry. eapply joinWith_empty; eauto.
  - destruct l2 as [|b l2].
    + eapply joinWith_empty; eauto.
    + rewrite <- (splitOn_joinWith sep (a :: l1)) by (auto; done).
      rewrite <- (splitOn_joinWith sep (b :: l2)) by (auto; done).
      by rewrite Hj.
Qed.

Lemma assemble_inj (sep : ascii) (rooted : bool) (l1 l2 : list string) :
  Forall (keptElement sep) l1 -> Forall (keptElement sep) l2 ->
  assemble sep rooted l1 = assemble sep rooted l2 -> l1 = l2.
Proof.
  intros H1 H2 Ha. unfold assemble in Ha. destruct rooted.
  - inversion Ha. by eapply joinWith_inj.
  - assert (Hdot : forall l, Forall (keptElement sep) l -> l <> [] ->
               joinWith sep l <> ".").
    { intros l Hl Hne Hj.
      assert (Hsplit : splitOn sep (joinWith sep l) = l).
      { apply splitOn_joinWith; [done|].
        eapply Forall_impl; [exact Hl|]. by intros e (_ & _ & H). }
      rewrite Hj in Hsplit.
      change (splitOn sep ".")
        with (if Ascii.eqb "." sep then [""; ""] else ["."]) in Hsplit.
      destruct (Ascii.eqb "." sep); subst l.
      + inversion Hl as [|x xs (Hx & _) _]. done.
      + inversion Hl as [|x xs (_ & Hx & _) _]. done. }
    destruct l1 as [|a l1], l2 as [|b l2]; try done.
    + exfalso. by eapply (Hdot (b :: l2)).
    + exfalso. by eapply (Hdot (a :: l1)).
    + by eapply joinWith_inj.
Qed.

(** X11.  On a Unix host, for nested imports the default reader gives two
    names the same path exactly when [path.Clean] keeps the same elements
    of both: different spellings of one module share a path, and
    different modules never do. *)
Theorem Resolve_identifies_modules
    (quote : string -> string)
    (rootDir name1 name2 from1 from2 : string) (r : localFileReader) :
  LocalFileReader rootDir = Return r ->
  from1 <> "" -> from2 <> "" ->
  (Resolve "/" quote unixJoin r name1 from1 = Resolve "/" quote unixJoin r name2 from2 <->
   elements "/" (String "/" name1) = elements "/" (String "/" name2)).
Proof.
  intros Hr Hf1 Hf2. destruct (LocalFileReader_root _ _ Hr) as [Hroot ->].
  rewrite (Resolve_nested_value quote rootDir name1 from1 Hroot Hf1).
  rewrite (Resolve_nested_value quote rootDir name2 from2 Hroot Hf2).
  split.
  - intros Heq. inversion Heq as [Hb]. unfold below in Hb.
    apply assemble_inj in Hb.
    + by apply app_inv_head in Hb.
    + apply Forall_app. split; [apply elements_kept|].
      eapply Forall_impl; [apply (name_elements_plain "/" name1 (or_introl eq_refl))|].
      apply plainName_kept.
    + apply Forall_app. split; [apply elements_kept|].
      eapply Forall_impl; [apply (name_elements_plain "/" name2 (or_introl eq_refl))|].
      apply plainName_kept.
  - intros Heq. by rewrite Heq.
Qed.

(** X12.  On a Unix host, for nested imports the path that the default
    reader returns is never empty, and it is absolute (it starts with a
    slash) exactly when the root is: a relative root gives relative
    paths, an absolute root absolute ones. *)
Theorem Resolve_keeps_rootedness
    (quote : string -> string)
    (rootDir name fromPath : string) (r : localFileReader) :
  LocalFileReader rootDir = Return r ->
  fromPath <> "" ->
  exists p,
    Resolve "/" quote unixJoin r name fromPath = (p, None) /\
    p <> "" /\
    isRooted "/" p = isRooted "/" rootDir.
Proof.
  intros Hr Hf. destruct (LocalFileReader_root _ _ Hr) as [Hroot ->].
  rewrite (Resolve_nested_value quote rootDir name fromPath Hroot Hf).
  eexists. split; [reflexivity|]. unfold below, assemble.
  destruct (isRooted "/" rootDir) eqn:Hrt.
  - split; done.
  - assert (Hk : Forall (keptElement "/")
                   (elements "/" rootDir ++ elements "/" (String "/" name))).
    { apply Forall_app. split; [apply elements_kept|].
      eapply Forall_impl; [apply (name_elements_plain "/" name (or_introl eq_refl))|].
      apply plainName_kept. }
    destruct (elements "/" rootDir ++ elements "/" (String "/" name))
      as [|e rest].
    + split; done.
    + inversion Hk as [|x xs (Hne & _ & Hns) _]; subst.
      destruct e as [|ch e']; [done|].
      change (ContainsRune (String ch e') "/")
        with (Ascii.eqb ch "/" || ContainsRune e' "/") in Hns.
      apply orb_false_elim in Hns as [Hch _].
      destruct rest; simpl; split; done.
Qed.

Lemma Resolve_identifies_modules_witness :
  Resolve "/" Examples.quoteASCII unixJoin (mkLocal "/cfg") "lib/util.sky" "/cfg/main.sky"
  = Resolve "/" Examples.quoteASCII unixJoin (mkLocal "/cfg") "../lib/./util.sky"
      "/cfg/lib/other.sky".
Proof.
  apply (proj2 (Resolve_identifies_modules Examples.quoteASCII "/cfg" "lib/util.sky"
                  "../lib/./util.sky" "/cfg/main.sky" "/cfg/lib/other.sky"
                  (mkLocal "/cfg") eq_refl ltac:(discriminate) ltac:(discriminate))).
  reflexivity.
Defined.

Lemma Resolve_keeps_rootedness_witness :
  exists p,
    Resolve "/" Examples.quoteASCII unixJoin (mkLocal "conf") "lib/../util.sky"
      "conf/main.sky" = (p, None) /\
    p <> "" /\
    isRooted "/" p = isRooted "/" "conf".
Proof.
  apply (Resolve_keeps_rootedness Examples.quoteASCII "conf" "lib/../util.sky"
           "conf/main.sky" (mkLocal "conf") eq_refl).
  discriminate.
Defined.

(** ** [Load] *)

Import Loader Loading Examples.

Lemma cleanWith_not_empty (sep : ascii) (path : string) : cleanWith sep path <> "".
Proof.
  unfold cleanWith, assemble. destruct (isRooted sep path); [done|].
  pose proof (elements_kept sep path) as Hk.
  destruct (elements sep path) as [|e rest]; [done|].
  inversion Hk as [|x xs (Hne & _) _]; subst.
  destruct e as [|ch e']; [done|]. destruct rest; done.
Qed.

Lemma unixDir_not_empty (path : string) : unixDir path <> "".
Proof. apply cleanWith_not_empty. Qed.

Section LoadFacts.

Context {ProtoRegistry : Type}.
Variable host : Runtime ProtoRegistry.

Lemma Load_unfold (fuel : nat) (filename : string) (opts : list LoadOption) :
  Load host fuel filename opts =
    match loadImpl (fileReader (applyLoadAll opts (initialOptions host filename)))
            (ExecFile host
               (protoRegistry (applyLoadAll opts (initialOptions host filename)))
               (globals (applyLoadAll opts (initialOptions host filename))))
            fuel filename with
    | None => Return None
    | Some ((configLocals, Some err), _) => Return (Some (None, Some err))
    | Some ((configLocals, None), _) =>
      Return (Some (Some (Harness.mkConfig filename
                            (globals (applyLoadAll opts (initialOptions host filename)))
                            configLocals), None))
    end.
Proof.
  unfold Load, LocalFileReader.
  pose proof (filepathDir_not_empty host filename) as Hd.
  apply String.eqb_neq in Hd. rewrite Hd. reflexivity.
Qed.


(** X14.  A [WithGlobals] option given last decides the globals it
    names: the configuration's globals are its entries over those of the
    earlier options, so it can replace a predeclared value such as
    [fail]; with no other option, every name it leaves out keeps its
    predeclared value. *)
Theorem Load_globals_override (fuel : nat) (filename : string)
    (opts : list LoadOption) (extra : StringDict) (cfg : Harness.Config) :
  Load host fuel filename (opts ++ [WithGlobals extra]) = Return (Some (Some cfg, None)) ->
  Harness.globals cfg
    = extra ∪ globals (applyLoadAll opts (initialOptions host filename)) /\
  (forall k v, extra !! k = Some v -> Harness.globals cfg !! k = Some v) /\
  (opts = [] -> forall k, extra !! k = None ->
     Harness.globals cfg !! k = predeclared host !! k).
Proof.
  rewrite Load_unfold. unfold applyLoadAll. rewrite fold_left_app. simpl.
  destruct (loadImpl _ _ fuel filename) as [[[l [err|]] final]|]; try discriminate.
  intros H. inversion H; subst; clear H. simpl. split; [done|]. split.
  - intros k v Hk. by apply lookup_union_Some_l.
  - intros -> k Hk. simpl. by rewrite lookup_union_r.
Qed.

(** X15.  With the default reader, [Load] reads the root module at the
    file name as given: when that file cannot be read, [Load] returns
    the error of the read and no configuration. *)
Theorem Load_unreadable_root (fuel : nat) (filename src : string) (e : error) :
  ioutilReadFile host filename = (src, Some e) ->
  Load host (S fuel) filename [] = Return (Some (None, Some e)).
Proof.
  intros Hrd. rewrite Load_unfold. unfold loadImpl. simpl.
  unfold Local.ReadFile. by rewrite Hrd.
Qed.

End LoadFacts.


Lemma Load_globals_override_witness :
  exists cfg,
    Load (demoHost unixDir_not_empty) 2 "/cfg/main.sky" ([] ++ [WithGlobals {[ "fail" := BuiltinValue "quiet" ]}])
      = Return (Some (Some cfg, None)) /\
    Harness.globals cfg !! "fail" = Some (BuiltinValue "quiet") /\
    Harness.globals cfg !! "json" = Some (ModuleValue "json" []).
Proof.
  destruct (Load (demoHost unixDir_not_empty) 2 "/cfg/main.sky"
              ([] ++ [WithGlobals {[ "fail" := BuiltinValue "quiet" ]}]))
    as [[[[cfg|] [e|]]|]|msg] eqn:HL; try (vm_compute in HL; discriminate).
  destruct (Load_globals_override (demoHost unixDir_not_empty) 2 "/cfg/main.sky" [] _ cfg HL)
    as (_ & Hset & Hkeep).
  exists cfg. split; [reflexivity|]. split.
  - apply Hset. reflexivity.
  - rewrite (Hkeep eq_refl "json"); reflexivity.
Defined.

Lemma Load_unreadable_root_witness :
  Load (demoHost unixDir_not_empty) 1 "/cfg/absent.sky" []
  = Return (Some (None, Some (Errorf "open /cfg/absent.sky: no such file or directory"))).
Proof.
  apply (Load_unreadable_root (demoHost unixDir_not_empty) 0 "/cfg/absent.sky" "").
  reflexivity.
Defined.

(** ** Sessions of the default reader *)

Import GoPath Local.

Lemma assemble_not_empty (sep : ascii) (rooted : bool) (elems : list string) :
  Forall (keptElement sep) elems -> assemble sep rooted elems <> "".
Proof.
  intros Hk. unfold assemble. destruct rooted; [done|].
  destruct elems as [|e rest]; [done|].
  inversion Hk as [|x xs (Hne & _) _]; subst.
  destruct e as [|ch e']; [done|]. destruct rest; done.
Qed.

Lemma below_not_empty (sep : ascii) (rootDir : string) (names : list string) :
  Forall (plainName sep) names -> below sep rootDir names <> "".
Proof.
  intros Hp. apply assemble_not_empty. apply Forall_app. split; [apply elements_kept|].
  eapply Forall_impl; [exact Hp|]. apply plainName_kept.
Qed.

Lemma Resolve_nested_confined (quote : string -> string)
    (rootDir name fromPath : string) :
  rootDir <> "" -> fromPath <> "" ->
  exists path,
    Resolve "/" quote unixJoin (mkLocal rootDir) name fromPath = (path, None) /\
    confined "/" rootDir path.
Proof.
  intros Hroot Hfrom. eexists. split; [by apply Resolve_nested_value|].
  exists (elements "/" (String "/" name)). split; [|done].
  apply name_elements_plain. by left.
Qed.

Import Loader.

Section SessionConfinement.

Variable quote : string -> string.
Variable ioutilReadFile : string -> string * option error.
Variable rootDir : string.
Hypothesis rootDir_not_empty : rootDir <> "".
Variable ExecFile : string -> string -> script.

Lemma execScript_confined (callback : string -> session -> outcome) :
  (forall m s r s', callback m s = Some (r, s') ->
     exists new, trace s' = trace s ++ new /\
       forall p, p ∈ fetched new -> confined "/" rootDir p) ->
  forall body s r s', execScript callback body s = Some (r, s') ->
    exists new, trace s' = trace s ++ new /\
      forall p, p ∈ fetched new -> confined "/" rootDir p.
Proof.
  intros Hcb body. induction body as [g e | m k IH]; intros s r s' Hex; simpl in Hex.
  - inversion Hex; subst. exists []. split; [by rewrite app_nil_r|].
    intros p Hp. inversion Hp.
  - destruct (callback m s) as [[r1 s1]|] eqn:Hc; [|done].
    destruct (Hcb _ _ _ _ Hc) as (n1 & Ht1 & H1).
    destruct (IH _ _ _ _ Hex) as (n2 & Ht2 & H2).
    exists (n1 ++ n2). split; [by rewrite Ht2, Ht1, app_assoc|].
    intros p. rewrite fetched_app, elem_of_app. intros [Hp|Hp]; auto.
Qed.

Lemma load_nested_confined (fuel : nat) :
  forall thread name s r s',
    fromPathOf thread <> "" ->
    load (localReader "/" quote unixJoin ioutilReadFile (mkLocal rootDir)) ExecFile
      fuel thread name s = Some (r, s') ->
    exists new, trace s' = trace s ++ new /\
      forall p, p ∈ fetched new -> confined "/" rootDir p.
Proof.
  induction fuel as [|fuel IH]; intros thread name s r s' Hfrom Hl; [done|].
  simpl in Hl.
  destruct (Resolve_nested_confined quote rootDir name (fromPathOf thread)
              rootDir_not_empty Hfrom) as (P & Hres & HP).
  rewrite Hres in Hl.
  destruct (cache _ !! P) as [[en|]|] eqn:Hc.
  - inversion Hl; subst; clear Hl. simpl. eexists. rewrite <- app_assoc.
    split; [reflexivity|]. intros p Hp. inversion Hp.
  - inversion Hl; subst; clear Hl. simpl. eexists. rewrite <- app_assoc.
    split; [reflexivity|]. intros p Hp. inversion Hp.
  - assert (Hone : forall p, p ∈ [P] -> confined "/" rootDir p).
    { intros p Hp. apply list_elem_of_singleton in Hp. by subst. }
    unfold Local.ReadFile in Hl.
    destruct (ioutilReadFile P) as [src [ferr|]] eqn:Hrd.
    + inversion Hl; subst; clear Hl. simpl. eexists. rewrite <- !app_assoc.
      split; [reflexivity|]. exact Hone.
    + match type of Hl with context [execScript ?cb ?b ?s0] =>
        destruct (execScript cb b s0) as [[[g e] s2]|] eqn:Hex; [|done]
      end.
      inversion Hl; subst r s'; clear Hl.
      assert (HPne : fromPathOf (P :: thread) <> "").
      { simpl. destruct HP as (names & Hn & ->). by apply below_not_empty. }
      destruct (execScript_confined _
                  (fun m s r s' => IH (P :: thread) m s r s' HPne) _ _ _ _ Hex)
        as (nb & Ht & Hb).
      simpl in *. rewrite Ht. rewrite <- !app_assoc. simpl.
      eexists. split; [reflexivity|].
      intros p. simpl. rewrite fetched_app. simpl. rewrite app_nil_r.
      intros Hp. apply elem_of_cons in Hp as [->|Hp]; auto.
Qed.

End SessionConfinement.

(** X17.  On a Unix host, in a session of [loadImpl] with the default
    reader on a non-empty root, started on a non-empty file name, every
    file that is read is either the root file, at its name as given, or
    lies below the root directory: its path is the cleaned root followed
    by plain names. *)
Theorem session_reads_below_root
    (quote : string -> string) (ioutilReadFile : string -> string * option error)
    (rootDir : string) (ExecFile : string -> string -> script)
    (fuel : nat) (filename : string)
    (r : StringDict * option error) (final : session) :
  rootDir <> "" ->
  filename <> "" ->
  loadImpl (localReader "/" quote unixJoin ioutilReadFile (mkLocal rootDir)) ExecFile
    fuel filename = Some (r, final) ->
  forall p, p ∈ fetched (trace final) ->
    p = filename \/ confined "/" rootDir p.
Proof.
  intros Hroot Hname Hl.
  unfold loadImpl in Hl. destruct fuel as [|fuel]; [done|]. simpl in Hl.
  rewrite lookup_empty in Hl. unfold Local.ReadFile in Hl.
  destruct (ioutilReadFile filename) as [src [ferr|]] eqn:Hrd.
  { inversion Hl; subst. simpl. intros p Hp.
    apply list_elem_of_singleton in Hp. by left. }
  match type of Hl with context [execScript ?cb ?b ?s0] =>
    destruct (execScript cb b s0) as [[[g e] s2]|] eqn:Hex; [|done]
  end.
  inversion Hl; subst r final; clear Hl.
  destruct (execScript_confined rootDir _
              (fun m s r s' =>
                 load_nested_confined quote ioutilReadFile rootDir Hroot ExecFile
                   fuel [filename] m s r s' Hname) _ _ _ _ Hex)
    as (nb & Ht & Hb).
  simpl in *. rewrite Ht.
  change ((EvResolve filename "" :: EvReadFile filename :: EvExecFile filename :: nb)
            ++ [EvReturn filename g e])
    with ([EvResolve filename ""; EvReadFile filename; EvExecFile filename]
            ++ nb ++ [EvReturn filename g e]).
  intros p. rewrite !fetched_app. simpl. rewrite app_nil_r.
  intros Hp. apply elem_of_cons in Hp as [->|Hp]; auto.
Qed.

Lemma session_reads_below_root_witness :
  exists r final,
    loadImpl Examples.diskReader (Examples.importEngine Examples.diskImports)
      2 "/cfg/main.sky" = Some (r, final) /\
    fetched (trace final) = ["/cfg/main.sky"; "/cfg/lib/util.sky"] /\
    forall p, p ∈ fetched (trace final) ->
      p = "/cfg/main.sky" \/ confined "/" "/cfg" p.
Proof.
  destruct (loadImpl Examples.diskReader (Examples.importEngine Examples.diskImports)
              2 "/cfg/main.sky") as [[r final]|] eqn:Hrun.
  - exists r, final. split; [reflexivity|]. split.
    + vm_compute in Hrun. inversion Hrun. reflexivity.
    + refine (session_reads_below_root _ _ "/cfg" _ 2 "/cfg/main.sky" r final
                _ _ Hrun); discriminate.
  - vm_compute in Hrun. discriminate.
Defined.


(** ** Options of [Load] *)

Import Loader Loading.

Section OptionKinds.

Context {ProtoRegistry : Type}.

(** X18.  Every option that the package can make is of one of three
    kinds, and options of different kinds do not interfere: after any
    list of options the globals are the entries of the globals options
    laid over the initial ones, later over earlier; the reader is that of
    the last reader option, the registry that of the last registry
    option, or the initial one when there is none.  The options with a
    nil reader or registry, or whose helper module failed to load, panic
    when they are made. *)
Theorem load_options_compose :
  (forall g, @WithGlobals ProtoRegistry g = optionOf (GlobalsOption g)) /\
  (forall helpers,
     @WithTestHelpers ProtoRegistry helpers
     = match helpers.2 with
       | Some _ => Panic "unable to load testing.star file"
       | None => Return (optionOf (GlobalsOption helpers.1))
       end) /\
  (forall loaded,
     @WithAssert ProtoRegistry loaded
     = match loaded.2 with
       | Some e => Panic ("WithAssert: unable to load assert module: " +:+ errorMessage e)
       | None => Return (optionOf (GlobalsOption loaded.1))
       end) /\
  (forall r,
     @WithFileReader ProtoRegistry r
     = match r with
       | None => Panic "WithFileReader: nil reader"
       | Some r => Return (optionOf (ReaderOption r))
       end) /\
  (forall reg : option ProtoRegistry,
     WithProtoRegistry reg
     = match reg with
       | None => Panic "WithProtoRegistry: nil registry"
       | Some reg => Return (optionOf (RegistryOption reg))
       end) /\
  (forall (ks : list (@optionKind ProtoRegistry)) start,
     applyLoadAll (map optionOf ks) start
     = mkLoadOptions (globalsAfter ks (globals start))
         (readerAfter ks (fileReader start))
         (registryAfter ks (protoRegistry start))).
Proof.
  split; [reflexivity|].
  split; [intros [h [e|]]; reflexivity|].
  split; [intros [h [e|]]; reflexivity|].
  split; [intros [r|]; reflexivity|].
  split; [intros [reg|]; reflexivity|].
  intros ks. induction ks as [|k rest IH]; intros start.
  - by destruct start.
  - unfold applyLoadAll, globalsAfter, readerAfter, registryAfter in *. simpl.
    rewrite IH. by destruct k.
Qed.

End OptionKinds.

(** ** Isolation of the tests run one by one *)

Import Harness.

(** X16.  [Run] passes to the test a context whose [vars] is a
    dictionary that did not exist before and is empty, leaving every
    existing dictionary as it was; so nothing that an earlier test wrote
    into its own [vars] is in the [vars] of a later one.  The handle it
    returns keeps the name and the callable, is complete, and records
    [FAIL] exactly when the call returned an error, with that error and
    the time the call took. *)
Theorem Run_isolates_vars
    (Call : Value -> list Value -> Heap -> (Value + error) * Heap)
    (t : Test) (h h' : Heap) (r : Value + error) :
  Call (callable t) [contextModule (varsRefAt h)] (snd (newDict h)) = (r, h') ->
  (varsRefAt h ∉ dom (dicts h)) /\
  dicts (snd (newDict h)) !! varsRefAt h = Some ∅ /\
  (forall ref, ref ∈ dom (dicts h) ->
     dicts (snd (newDict h)) !! ref = dicts h !! ref) /\
  Run Call t h
  = ((mkTest (name t) (callable t)
        (match r with inl _ => PASS | inr _ => FAIL end)
        (clock h' - clock h)%Z true
        (match r with inl _ => None | inr e => Some e end),
      match r with inl _ => None | inr e => Some e end), h').
Proof.
  intros Hcall.
  assert (Hfresh : varsRefAt h ∉ dom (dicts h)).
  { unfold varsRefAt, newDict. simpl. apply is_fresh. }
  split; [exact Hfresh|]. split; [|split].
  - unfold varsRefAt, newDict. simpl. apply lookup_insert_eq.
  - intros ref Href. unfold newDict. simpl. rewrite lookup_insert_ne; [done|].
    intros Heq. apply Hfresh. unfold varsRefAt, newDict. simpl. by rewrite Heq.
  - unfold Run. unfold varsRefAt, newDict in *. simpl in *. rewrite Hcall.
    by destruct r.
Qed.

Lemma Run_isolates_vars_witness :
  exists t1 h1 t2 h2,
    Run Examples.demoCall (newTest ("test_a", FunctionValue "test_marks"))
      Examples.emptyHeap = ((t1, None), h1) /\
    Run Examples.demoCall (newTest ("test_b", FunctionValue "test_expects_clean"))
      h1 = ((t2, None), h2) /\
    dicts (snd (newDict h1)) !! varsRefAt h1 = Some ∅.
Proof.
  destruct (Examples.demoCall (FunctionValue "test_marks")
              [contextModule (varsRefAt Examples.emptyHeap)]
              (snd (newDict Examples.emptyHeap))) as [r1 h1] eqn:H1.
  destruct (Run_isolates_vars Examples.demoCall
              (newTest ("test_a", FunctionValue "test_marks")) _ _ _ H1)
    as (_ & _ & _ & HR1).
  destruct (Examples.demoCall (FunctionValue "test_expects_clean")
              [contextModule (varsRefAt h1)] (snd (newDict h1))) as [r2 h2] eqn:H2.
  destruct (Run_isolates_vars Examples.demoCall
              (newTest ("test_b", FunctionValue "test_expects_clean")) _ _ _ H2)
    as (_ & Hempty & _ & HR2).
  vm_compute in H1. inversion H1; subst r1 h1.
  vm_compute in H2. inversion H2; subst r2 h2.
  eexists _, _, _, _. split; [exact HR1|]. split; [exact HR2|exact Hempty].
Defined.
